(** * Antigravity Skill Manager: a shallow embedding of [antigravity_skills/cli.py]

    The file models the command line tool that turns skills ([SKILL.md]
    files of a git repository) into workflow files, workspace rule files and
    blocks of the global rules document:
    - the frontmatter parser [parse_skill_md],
    - the writers [create_workflow], [create_workspace_rule],
      [create_rule_global] and [update_global_rule],
    - [remove_artifact],
    - the command handlers [command_add_source], [command_list_sources] and
      [command_ingest], the listing [list_artifacts], the configuration
      ([load_config], [save_config]) and the dispatch of [main].

    How the program is modelled.
    - A Python string is a sequence of Unicode code points: a list of [N].
      The string methods and the regular expressions the source uses are
      defined first, each with the Python expression it stands for.
    - The files the tool owns, what it prints and what it writes make up a
      world [fs]; a function of the source with effects is a computation
      [io A] that takes a world and returns a value or an exception together
      with the new world.  A file holds the text last written to it, and
      reading goes through text mode, which turns [\r\n] and [\r] into
      [\n].
    - What lies outside the tool (the git command, the cloned repository) is
      an [environment] the handlers take as an argument; the entries of the
      two directories [list_artifacts] looks into are [directories].
    - The two listing commands only print: their value is the list of the
      lines printed.
    - The options of the command line are the values [argparse] lets
      through: the choices of [--as], [--scope], [--type] and [--activation]
      are enumerations.
    - Replacement templates follow CPython 3.12 ([re._parser.parse_template]).

    The definitions come first, the properties after them. *)

From Stdlib Require Import NArith Ascii String Lia.
From stdpp Require Import base option list countable gmap sorting.

Local Open Scope N_scope.
Local Open Scope nat_scope.

(** ** Characters and strings *)

Abbreviation char := N (only parsing).
Abbreviation str := (list N) (only parsing).

(** An ASCII literal as a Python string. *)
Fixpoint lit (s : string) : str :=
  match s with
  | EmptyString => []
  | String a s' => N_of_ascii a :: lit s'
  end.
Arguments lit s%_string.

Definition nl : char := 10%N.          (* line feed *)
Definition cr : char := 13%N.          (* carriage return *)
Definition lt : char := 60%N.          (* the character < *)
Definition gt : char := 62%N.          (* the character > *)
Definition colon : char := 58%N.
Definition backslash : char := 92%N.
Definition slash : char := 47%N.

Definition char_eqb (a b : char) : bool := N.eqb a b.

(** [str.isspace] on one code point (CPython's [Py_UNICODE_ISSPACE]); the same
    set is what [str.strip()] removes and what [\s] matches in a [str]
    pattern. *)
Definition is_space (c : char) : bool :=
  ((9 <=? c) && (c <=? 13))%N || ((28 <=? c) && (c <=? 32))%N
  || (c =? 133)%N || (c =? 160)%N || (c =? 5760)%N
  || ((8192 <=? c) && (c <=? 8202))%N
  || (c =? 8232)%N || (c =? 8233)%N || (c =? 8239)%N || (c =? 8287)%N
  || (c =? 12288)%N.

(** The line boundaries of [str.splitlines]. *)
Definition is_linebreak (c : char) : bool :=
  ((10 <=? c) && (c <=? 13))%N || ((28 <=? c) && (c <=? 30))%N
  || (c =? 133)%N || (c =? 8232)%N || (c =? 8233)%N.

(** ** Python string primitives *)

(** [s.startswith(p)] *)
Fixpoint startswith (p s : str) : bool :=
  match p, s with
  | [], _ => true
  | _ :: _, [] => false
  | a :: p', b :: s' => char_eqb a b && startswith p' s'
  end.

(** [s.partition(sep)] restricted to the case where [sep] is found: the text
    before the first occurrence of [sep] and the text after it. *)
Fixpoint cut (sep s : str) : option (str * str) :=
  if startswith sep s then Some ([], drop (length sep) s)
  else match s with
       | [] => None
       | ch :: s' =>
           match cut sep s' with
           | Some (a, b) => Some (ch :: a, b)
           | None => None
           end
       end.

(** [sub in s] *)
Definition contains (sub s : str) : bool :=
  match cut sub s with Some _ => true | None => false end.

(** [s.split(sep, maxsplit)] for a non-empty [sep] and [maxsplit >= 0]. *)
Fixpoint split_n (sep : str) (maxsplit : nat) (s : str) : list str :=
  match maxsplit with
  | O => [s]
  | S m =>
      match cut sep s with
      | None => [s]
      | Some (a, b) => a :: split_n sep m b
      end
  end.

(** [s.split(sep)]: no limit; a string has at most [length s] separators. *)
Definition split_all (sep s : str) : list str := split_n sep (length s) s.

(** [s.replace(old, new)] for a non-empty [old]: every non-overlapping
    occurrence, left to right. *)
Fixpoint replace_upto (fuel : nat) (old new s : str) : str :=
  match fuel with
  | O => s
  | S f =>
      match cut old s with
      | None => s
      | Some (a, b) => a ++ new ++ replace_upto f old new b
      end
  end.

Definition replace (old new s : str) : str := replace_upto (length s) old new s.

(** [s.lstrip()], [s.rstrip()], [s.strip()] *)
Fixpoint lstrip (s : str) : str :=
  match s with
  | [] => []
  | ch :: s' => if is_space ch then lstrip s' else s
  end.

Definition rstrip (s : str) : str := rev (lstrip (rev s)).

Definition strip (s : str) : str := lstrip (rstrip s).

(** [s.splitlines()]: the line breaks are dropped, [\r\n] counts as one, and a
    final line break opens no empty last line. *)
Fixpoint splitlines (s : str) : list str :=
  match s with
  | [] => []
  | ch :: s' =>
      if is_linebreak ch then
        [] :: match s' with
              | ch2 :: s'' =>
                  if char_eqb ch cr && char_eqb ch2 nl then splitlines s''
                  else splitlines s'
              | [] => []
              end
      else
        match splitlines s' with
        | [] => [[ch]]
        | l :: ls => (ch :: l) :: ls
        end
  end.

(** What text mode does to a file on reading ([Path.read_text] opens with
    universal newlines): [\r\n] and a lone [\r] both read as [\n]. *)
Fixpoint universal_newlines (s : str) : str :=
  match s with
  | [] => []
  | ch :: s' =>
      if char_eqb ch cr then
        nl :: match s' with
              | ch2 :: s'' =>
                  if char_eqb ch2 nl then universal_newlines s'' else universal_newlines s'
              | [] => []
              end
      else ch :: universal_newlines s'
  end.

(** ** The regular expressions of the source

    The source builds two patterns, both from a pair of literal markers
    (escaped with [re.escape], so they match themselves) and both with
    [re.DOTALL]:
    - [START.*?END]     in [update_global_rule],
    - [START.*?END\s*]  in [remove_artifact],
    and one fixed pattern, [\n{3,}].  They are modelled by the backtracking
    search they denote. *)

Record pattern := mkPattern {
  p_start : str;             (* the literal the match starts with *)
  p_end : str;               (* the literal that ends the lazy [.*?] *)
  p_trailing_space : bool    (* a final greedy [\s*] *)
}.

(** An attempt at the start of [s]: the literal, then as few characters as
    possible ([.*?] tries the end literal first and consumes one more
    character when that fails), then the end literal, then the greedy [\s*].
    The result is the text matched by [.*?] and the unmatched rest. *)
Definition match_here (p : pattern) (s : str) : option (str * str) :=
  if startswith (p_start p) s then
    match cut (p_end p) (drop (length (p_start p)) s) with
    | Some (x, r) => Some (x, if p_trailing_space p then lstrip r else r)
    | None => None
    end
  else None.

(** [pattern.search(s)]: the first position at which an attempt succeeds.
    The result is the text before the match, the text matched by [.*?], and
    the text after the match. *)
Fixpoint re_search (p : pattern) (s : str) : option (str * str * str) :=
  match match_here p s with
  | Some (x, r) => Some ([], x, r)
  | None =>
      match s with
      | [] => None
      | ch :: s' =>
          match re_search p s' with
          | Some (a, x, r) => Some (ch :: a, x, r)
          | None => None
          end
      end
  end.

(** *** Replacement templates

    [pattern.sub(repl, s)] with a string [repl] processes the backslash
    escapes of [repl] (CPython's [re._parser.parse_template]); a [repl]
    without a backslash stands for itself.  The patterns above have no group,
    so the only group reference that resolves is group 0, the whole match. *)

Inductive token := Chr (c : char) | Esc (c : char).

(** The tokenizer reads a backslash together with the character after it; a
    backslash at the very end is an error. *)
Fixpoint tokenize (s : str) : option (list token) :=
  match s with
  | [] => Some []
  | c :: s' =>
      if char_eqb c backslash then
        match s' with
        | [] => None
        | e :: s'' => cons (Esc e) <$> tokenize s''
        end
      else cons (Chr c) <$> tokenize s'
  end.

Inductive titem := TLit (c : char) | TGroup0.

Definition is_octdigit (c : char) : bool := ((48 <=? c) && (c <=? 55))%N.
Definition is_digit (c : char) : bool := ((48 <=? c) && (c <=? 57))%N.
Definition is_ascii_letter (c : char) : bool :=
  ((65 <=? c) && (c <=? 90))%N || ((97 <=? c) && (c <=? 122))%N.
Definition digit_val (c : char) : N := (c - 48)%N.

(** The table [ESCAPES] of the parser: [\a \b \f \n \r \t \v \\]. *)
Definition escape_char (c : char) : option char :=
  if (c =? 97)%N then Some 7%N
  else if (c =? 98)%N then Some 8%N
  else if (c =? 102)%N then Some 12%N
  else if (c =? 110)%N then Some 10%N
  else if (c =? 114)%N then Some 13%N
  else if (c =? 116)%N then Some 9%N
  else if (c =? 118)%N then Some 11%N
  else if (c =? 92)%N then Some 92%N
  else None.

Definition token_text (t : token) : str :=
  match t with Chr c => [c] | Esc c => [backslash; c] end.

(** A group name [\g<name>] in a pattern without groups: only a decimal name
    of value 0 resolves (CPython 3.12; an identifier raises [IndexError], any
    other name [re.error]). *)
Definition group_name_ok (name : str) : bool :=
  match name with
  | [] => false
  | _ => forallb (fun c => char_eqb c 48%N) name
  end.

(** [parse_tokens None toks] parses replacement text; [parse_tokens (Some acc)
    toks] is inside a group name [\g<...] whose characters so far are [acc].
    [None] as a result is the exception the template compiler raises. *)
Fixpoint parse_tokens (name : option str) (toks : list token) : option (list titem) :=
  match name with
  | Some acc =>
      match toks with
      | [] => None
      | Chr c :: rest =>
          if char_eqb c gt then
            if group_name_ok acc then cons TGroup0 <$> parse_tokens None rest else None
          else parse_tokens (Some (acc ++ [c])) rest
      | Esc c :: rest => parse_tokens (Some (acc ++ [backslash; c])) rest
      end
  | None =>
      match toks with
      | [] => Some []
      | Chr c :: rest => cons (TLit c) <$> parse_tokens None rest
      | Esc c :: rest =>
          if char_eqb c 103%N then                      (* \g *)
            match rest with
            | Chr c1 :: rest1 => if char_eqb c1 lt then parse_tokens (Some []) rest1 else None
            | _ => None
            end
          else if char_eqb c 48%N then                  (* \0, \0o, \0oo *)
            match rest with
            | Chr d1 :: rest1 =>
                if is_octdigit d1 then
                  match rest1 with
                  | Chr d2 :: rest2 =>
                      if is_octdigit d2 then
                        cons (TLit (N.land (8 * digit_val d1 + digit_val d2) 255)) <$> parse_tokens None rest2
                      else cons (TLit (digit_val d1)) <$> parse_tokens None rest1
                  | _ => cons (TLit (digit_val d1)) <$> parse_tokens None rest1
                  end
                else cons (TLit 0%N) <$> parse_tokens None rest
            | _ => cons (TLit 0%N) <$> parse_tokens None rest
            end
          else if is_digit c then                       (* \1 .. \9 *)
            match rest with
            | Chr d1 :: Chr d2 :: rest2 =>
                if is_octdigit c && is_octdigit d1 && is_octdigit d2 then
                  let v := (64 * digit_val c + 8 * digit_val d1 + digit_val d2)%N in
                  if (v <=? 255)%N then cons (TLit v) <$> parse_tokens None rest2 else None
                else None                               (* a reference to a group >= 1 *)
            | _ => None                                 (* a reference to a group >= 1 *)
            end
          else
            match escape_char c with
            | Some e => cons (TLit e) <$> parse_tokens None rest
            | None =>
                if is_ascii_letter c then None
                else (fun t => TLit backslash :: TLit c :: t) <$> parse_tokens None rest
            end
      end
  end.

Definition parse_template (repl : str) : option (list titem) :=
  if contains [backslash] repl then tokenize repl ≫= parse_tokens None
  else Some (TLit <$> repl).

Definition expand_template (tpl : list titem) (matched : str) : str :=
  concat ((fun i => match i with TLit c => [c] | TGroup0 => matched end) <$> tpl).

(** The replacement loop of [pattern.sub]: each match, left to right, the
    search resuming after the match.  A match is never empty (it contains the
    start literal), so [length s] rounds suffice. *)
Fixpoint sub_upto (fuel : nat) (p : pattern) (tpl : list titem) (s : str) : str :=
  match fuel with
  | O => s
  | S f =>
      match re_search p s with
      | None => s
      | Some (a, x, r) =>
          let matched := take (length s - length a - length r) (drop (length a) s) in
          a ++ expand_template tpl matched ++ sub_upto f p tpl r
      end
  end.

(** [pattern.sub(repl, s)]; [None] when the template does not compile. *)
Definition re_sub (p : pattern) (repl s : str) : option str :=
  match parse_template repl with
  | None => None
  | Some tpl => Some (sub_upto (length s) p tpl s)
  end.

(** [re.sub(r"\n{3,}", "\n\n", s)]: [pending] line feeds have been read since
    the last other character; a maximal run of three or more becomes two. *)
Definition emit_newlines (pending : nat) : str :=
  if 3 <=? pending then [nl; nl] else repeat nl pending.

Fixpoint collapse_from (pending : nat) (s : str) : str :=
  match s with
  | [] => emit_newlines pending
  | ch :: s' =>
      if char_eqb ch nl then collapse_from (S pending) s'
      else emit_newlines pending ++ ch :: collapse_from 0 s'
  end.

Definition collapse_newlines (s : str) : str := collapse_from 0 s.

(** ** The world of the tool: files, output, exceptions *)

Inductive exn :=
  | IndexError            (* [list(...)[0]] on an empty list *)
  | KeyError              (* a dictionary without the key *)
  | TemplateError         (* the exception of the [re] template compiler *)
  | CalledProcessError    (* a git command that exits non-zero *)
  | FileNotFoundError.

Inductive target :=
  | GLOBAL_RULES_FILE
  | WORKFLOWS_DIR (skill_name : str)           (* WORKFLOWS_DIR / f"{skill_name}.md" *)
  | WORKSPACE_RULES_DIR (skill_name : str).    (* WORKSPACE_RULES_DIR / f"{skill_name}.md" *)

(** What the tool prints, one constructor per [print] of the source. *)
Inductive message :=
  | MsgCommandFailed                       (* the three lines of [run_command] *)
  | MsgUpdating (name url : str)
  | MsgCloning (name url : str)
  | MsgCreatedWorkflow (skill_name : str)
  | MsgUpdatingGlobalRule (skill_name : str)
  | MsgAppendingGlobalRule (skill_name : str)
  | MsgSavedGlobalRule
  | MsgCreatedWorkspaceRule (skill_name : str)
  | MsgAddedSource (name url : str)
  | ErrSourceNotFound (source : str)
  | ErrSkillNotFound (skill_name source_name : str)
  | ErrParsingSkill
  | ErrGlobRequired
  | MsgRemovedWorkflow (name : str)
  | MsgWorkflowNotFound (name : str)
  | MsgRemovedWorkspaceRule (name : str)
  | MsgWorkspaceRuleNotFound (name : str)
  | MsgGlobalRulesFileMissing
  | MsgGlobalRuleNotFound (name : str)
  | MsgRemovedGlobalRule (name : str).


(** A dictionary with string keys in insertion order (the [sources] mapping,
    whose first key the source asks for). *)
Definition dict : Type := list (str * str).

Fixpoint dict_get (d : dict) (k : str) : option str :=
  match d with
  | [] => None
  | (k', v) :: d' => if decide (k' = k) then Some v else dict_get d' k
  end.

Fixpoint dict_set (d : dict) (k v : str) : dict :=
  match d with
  | [] => [(k, v)]
  | (k', v') :: d' => if decide (k' = k) then (k, v) :: d' else (k', v') :: dict_set d' k v
  end.

(** The configuration: the JSON object, of which only the key [sources] is
    read; [None] when the object has no such key. *)
Record config := mkConfig { sources : option dict }.

Inductive event :=
  | Print (m : message)
  | WriteText (t : target) (content : str)
  | Unlink (t : target)
  | SaveConfig (c : config).

Record fs := mkFs {
  global_rules : option str;          (* ~/.gemini/GEMINI.md, as last written *)
  workflows : gmap str str;           (* .agent/workflows/<name>.md *)
  workspace_rules : gmap str str;     (* .agent/rules/<name>.md *)
  config_file : option config;        (* skills_config.json *)
  log : list event                    (* what happened, oldest first *)
}.

(** Computations that read and write the world and may raise. *)
Definition io (A : Type) : Type := fs -> (exn + A) * fs.

#[global] Instance io_ret : MRet io := fun A (x : A) w => (inr x, w).

#[global] Instance io_bind : MBind io := fun A B (f : A -> io B) (m : io A) w =>
  match m w with
  | (inr x, w') => f x w'
  | (inl e, w') => (inl e, w')
  end.

Definition raise {A} (e : exn) : io A := fun w => (inl e, w).

(** The world after the events [evs]. *)
Definition add_log (w : fs) (evs : list event) : fs :=
  mkFs (global_rules w) (workflows w) (workspace_rules w) (config_file w) (log w ++ evs).

Definition print (m : message) : io unit := fun w => (inr tt, add_log w [Print m]).

Definition exists_ (t : target) : io bool := fun w =>
  (inr match t with
       | GLOBAL_RULES_FILE => bool_decide (is_Some (global_rules w))
       | WORKFLOWS_DIR n => bool_decide (is_Some (workflows w !! n))
       | WORKSPACE_RULES_DIR n => bool_decide (is_Some (workspace_rules w !! n))
       end, w).

(** [GLOBAL_RULES_FILE.read_text()] *)
Definition read_global_rules : io str := fun w =>
  match global_rules w with
  | Some c => (inr (universal_newlines c), w)
  | None => (inl FileNotFoundError, w)
  end.

(** The files after [t] has been written ([Some content]) or deleted
    ([None]). *)
Definition set_file (t : target) (content : option str) (w : fs) : fs :=
  match t with
  | GLOBAL_RULES_FILE =>
      mkFs content (workflows w) (workspace_rules w) (config_file w) (log w)
  | WORKFLOWS_DIR n =>
      mkFs (global_rules w) (partial_alter (λ _, content) n (workflows w)) (workspace_rules w)
           (config_file w) (log w)
  | WORKSPACE_RULES_DIR n =>
      mkFs (global_rules w) (workflows w) (partial_alter (λ _, content) n (workspace_rules w))
           (config_file w) (log w)
  end.

Definition write_text (t : target) (content : str) : io unit := fun w =>
  (inr tt, add_log (set_file t (Some content) w) [WriteText t content]).

Definition unlink (t : target) : io unit := fun w =>
  (inr tt, add_log (set_file t None w) [Unlink t]).

Definition save_config (c : config) : io unit := fun w =>
  (inr tt, add_log (mkFs (global_rules w) (workflows w) (workspace_rules w) (Some c) (log w))
                   [SaveConfig c]).

(** The files written, in order, among the events [evs]. *)
Definition written_in (evs : list event) : list target :=
  omap (fun e => match e with WriteText t _ => Some t | _ => None end) evs.


(** The files written and the messages printed so far. *)
Definition written (w : fs) : list target := written_in (log w).

(** ** The program *)

(** The value [parse_skill_md] returns: [{"frontmatter": ..., "body": ...}]. *)
Record skill := mkSkill { frontmatter : gmap str str; body : str }.

(** The loop over [fm_text.splitlines()]. *)
Definition parse_line (fm : gmap str str) (line : str) : gmap str str :=
  if contains [colon] line then
    match split_n [colon] 1 line with
    | [key; val] => <[strip key := strip val]> fm
    | _ => fm
    end
  else fm.

Definition parse_frontmatter (fm_text : str) : gmap str str :=
  foldl parse_line ∅ (splitlines fm_text).

(** The body of [parse_skill_md] once [SKILL.md] has been read: the "very
    basic frontmatter parser". *)
Definition parse_content (content : str) : skill :=
  if startswith (lit "---") content then
    match split_n (lit "---") 2 content with
    | _ :: fm_text :: rest :: _ => mkSkill (parse_frontmatter fm_text) (strip rest)
    | _ => mkSkill ∅ content
    end
  else mkSkill ∅ content.

(** [parse_skill_md(skill_path)], given what [skill_path / "SKILL.md"] holds
    ([None] when there is no such file). *)
Definition parse_skill_md (skill_file : option str) : exn + skill :=
  match skill_file with
  | None => inl FileNotFoundError
  | Some content => inr (parse_content content)
  end.

(** The text [create_workflow] writes. *)
Definition workflow_text (skill_name : str) (data : skill) : str :=
  let description :=
    default (lit "Workflow for " ++ skill_name) (frontmatter data !! lit "description") in
  lit "---" ++ [nl] ++ lit "description: " ++ description ++ [nl] ++
  lit "---" ++ [nl] ++ body data ++ [nl].

Definition create_workflow (skill_name : str) (data : skill) : io unit :=
  write_text (WORKFLOWS_DIR skill_name) (workflow_text skill_name data) ;;
  print (MsgCreatedWorkflow skill_name).

Definition start_marker (skill_name : str) : str :=
  lit "<!-- ANTHROPIC_SKILL_START: " ++ skill_name ++ lit " -->".

Definition end_marker (skill_name : str) : str :=
  lit "<!-- ANTHROPIC_SKILL_END: " ++ skill_name ++ lit " -->".

Definition new_block (skill_name content : str) : str :=
  start_marker skill_name ++ [nl] ++ content ++ [nl] ++ end_marker skill_name.

Arguments start_marker : simpl never.
Arguments end_marker : simpl never.
Arguments new_block : simpl never.

Definition update_global_rule (skill_name content : str) : io unit :=
  present ← exists_ GLOBAL_RULES_FILE;
  (if present : bool then mret tt else write_text GLOBAL_RULES_FILE []) ;;
  current_content ← read_global_rules;
  let pattern := mkPattern (start_marker skill_name) (end_marker skill_name) false in
  updated_content ←
    (if bool_decide (is_Some (re_search pattern current_content)) then
       print (MsgUpdatingGlobalRule skill_name) ;;
       match re_sub pattern (new_block skill_name content) current_content with
       | Some updated => mret updated
       | None => raise TemplateError
       end
     else
       print (MsgAppendingGlobalRule skill_name) ;;
       let separator := if bool_decide (strip current_content = []) then [] else [nl; nl] in
       mret (current_content ++ separator ++ new_block skill_name content));
  write_text GLOBAL_RULES_FILE updated_content ;;
  print MsgSavedGlobalRule.

Inductive activation_type := Manual | AlwaysOn | ModelDecision | Glob.

Definition activation_name (t : activation_type) : str :=
  match t with
  | Manual => lit "manual"
  | AlwaysOn => lit "always-on"
  | ModelDecision => lit "model-decision"
  | Glob => lit "glob"
  end.

(** The dictionary [activation]: it always has the key [type]. *)
Record activation := mkActivation { act_type : activation_type; act_glob : option str }.

(** Python's truth value of an optional string. *)
Definition truthy (o : option str) : bool :=
  match o with Some (_ :: _) => true | _ => false end.

(** The lines [create_workspace_rule] adds for [activation]. *)
Definition activation_text (act : option activation) : str :=
  match act with
  | None => []
  | Some a =>
      lit "activation:" ++ [nl] ++
      lit "  type: " ++ activation_name (act_type a) ++ [nl] ++
      (if truthy (act_glob a) then lit "  glob: " ++ default [] (act_glob a) ++ [nl] else [])
  end.

Definition workspace_rule_text (skill_name : str) (data : skill) (act : option activation) : str :=
  let description :=
    default (lit "Rule for " ++ skill_name) (frontmatter data !! lit "description") in
  let frontmatter :=
    lit "---" ++ [nl] ++ lit "description: " ++ description ++ [nl] ++
    activation_text act ++ lit "---" ++ [nl; nl] in
  frontmatter ++ body data.

Definition create_workspace_rule (skill_name : str) (data : skill) (act : option activation) : io unit :=
  write_text (WORKSPACE_RULES_DIR skill_name) (workspace_rule_text skill_name data act) ;;
  print (MsgCreatedWorkspaceRule skill_name).

(** [create_rule_global]: the description, when there is one, goes in front of
    the body as a comment. *)
Definition create_rule_global (skill_name : str) (data : skill) : io unit :=
  let content :=
    match frontmatter data !! lit "description" with
    | Some d => lit "<!-- " ++ d ++ lit " -->" ++ [nl; nl] ++ body data
    | None => body data
    end in
  update_global_rule skill_name content.

(** *** add-source *)

Record add_source_args := mkAddSourceArgs { as_url : str; as_name : option str }.

(** [args.name or args.url.split("/")[-1].replace(".git", "")] *)
Definition source_name_of (args : add_source_args) : str :=
  if truthy (as_name args) then default [] (as_name args)
  else replace (lit ".git") [] (default [] (last (split_all (lit "/") (as_url args)))).

Definition command_add_source (args : add_source_args) (cfg : config) : io unit :=
  let name := source_name_of args in
  match sources cfg with
  | None => raise KeyError
  | Some srcs =>
      save_config (mkConfig (Some (dict_set srcs name (as_url args)))) ;;
      print (MsgAddedSource name (as_url args))
  end.

(** *** ingest *)

(** What the tool finds outside its own files: the cache directory, the git
    command, and the tree of a synchronised repository.  A skill directory is
    [None] when it does not exist, [Some None] when it exists without a
    [SKILL.md], and [Some (Some c)] when its [SKILL.md] reads as [c]. *)
Record repo := mkRepo {
  in_skills : str -> option (option str);     (* repo_path / "skills" / skill_name *)
  at_top : str -> option (option str)         (* repo_path / skill_name *)
}.

Record environment := mkEnv {
  cached : str -> bool;                  (* (CACHE_DIR / name).exists() *)
  git : str -> str -> option repo        (* [None]: git exits non-zero *)
}.

Definition ensure_repo_synced (env : environment) (name url : str) : io repo :=
  (if cached env name then print (MsgUpdating name url) else print (MsgCloning name url)) ;;
  match git env name url with
  | Some r => mret r
  | None => print MsgCommandFailed ;; raise CalledProcessError
  end.

Inductive artifact_type := AsWorkflow | AsRule.
Inductive scope := ScopeGlobal | ScopeWorkspace.

Record ingest_args := mkIngestArgs {
  in_skill_name : str;
  in_as_type : artifact_type;               (* --as, required *)
  in_source : option str;                   (* --source *)
  in_scope : scope;                         (* --scope, default workspace *)
  in_activation : option activation_type;   (* --activation *)
  in_glob_pattern : option str              (* --glob *)
}.

(** The choice of the source: the lines under [# Determines source to use].
    [None] stands for the early [return] after the error message. *)
Definition select_source (args : ingest_args) (srcs : dict) : io (option (str * str)) :=
  if truthy (in_source args) then
    let source := default [] (in_source args) in
    match dict_get srcs source with
    | Some url => mret (Some (source, url))
    | None => print (ErrSourceNotFound source) ;; mret None
    end
  else
    source_name ←
      (if bool_decide (is_Some (dict_get srcs (lit "anthropics"))) then mret (lit "anthropics")
       else match srcs with
            | [] => raise IndexError
            | (k, _) :: _ => mret k
            end);
    match dict_get srcs source_name with
    | Some url => mret (Some (source_name, url))
    | None => raise KeyError
    end.

(** The last part of [command_ingest], from [if args.as_type == "workflow"]:
    the artifact the parsed skill is turned into. *)
Definition write_artifact (args : ingest_args) (skill_name : str) (data : skill) : io unit :=
  match in_as_type args with
  | AsWorkflow => create_workflow skill_name data
  | AsRule =>
      match in_scope args with
      | ScopeGlobal => create_rule_global skill_name data
      | ScopeWorkspace =>
          match in_activation args with
          | None => create_workspace_rule skill_name data None
          | Some Glob =>
              if negb (truthy (in_glob_pattern args)) then print ErrGlobRequired
              else create_workspace_rule skill_name data
                     (Some (mkActivation Glob (in_glob_pattern args)))
          | Some t =>
              create_workspace_rule skill_name data (Some (mkActivation t None))
          end
      end
  end.

Definition command_ingest (env : environment) (args : ingest_args) (cfg : config) : io unit :=
  let skill_name := in_skill_name args in
  let srcs := default [] (sources cfg) in
  chosen ← select_source args srcs;
  match chosen with
  | None => mret tt
  | Some (source_name, source_url) =>
      repo_path ← ensure_repo_synced env source_name source_url;
      let skill_dir :=
        match in_skills repo_path skill_name with
        | Some d => Some d
        | None => at_top repo_path skill_name
        end in
      match skill_dir with
      | None => print (ErrSkillNotFound skill_name source_name)
      | Some skill_file =>
          match parse_skill_md skill_file with
          | inl _ => print ErrParsingSkill
          | inr data => write_artifact args skill_name data
          end
      end
  end.

(** *** remove *)

Definition remove_artifact (name : str) (type_ : artifact_type) (sc : scope) : io unit :=
  match type_ with
  | AsWorkflow =>
      present ← exists_ (WORKFLOWS_DIR name);
      if present : bool then unlink (WORKFLOWS_DIR name) ;; print (MsgRemovedWorkflow name)
      else print (MsgWorkflowNotFound name)
  | AsRule =>
      match sc with
      | ScopeWorkspace =>
          present ← exists_ (WORKSPACE_RULES_DIR name);
          if present : bool then
            unlink (WORKSPACE_RULES_DIR name) ;; print (MsgRemovedWorkspaceRule name)
          else print (MsgWorkspaceRuleNotFound name)
      | ScopeGlobal =>
          present ← exists_ GLOBAL_RULES_FILE;
          if negb present then print MsgGlobalRulesFileMissing
          else
            content ← read_global_rules;
            if negb (contains (start_marker name) content) then
              print (MsgGlobalRuleNotFound name)
            else
              let pattern := mkPattern (start_marker name) (end_marker name) true in
              match re_sub pattern [] content with
              | None => raise TemplateError
              | Some new_content =>
                  let new_content := collapse_newlines (strip new_content ++ [nl]) in
                  write_text GLOBAL_RULES_FILE new_content ;;
                  print (MsgRemovedGlobalRule name)
              end
      end
  end.

(** ** Notions used in the statements *)

(** The number of positions of [s] at which [p] occurs. *)
Fixpoint occurrences (p s : str) : nat :=
  (if startswith p s then 1 else 0) +
  match s with
  | [] => 0
  | _ :: s' => occurrences p s'
  end.

(** [p] is a piece of [s]. *)
Definition occurs_in (p s : str) : Prop := ∃ u v, s = u ++ p ++ v.

(** Neither marker of [skill_name] occurs in [t]. *)
Definition marker_free (skill_name t : str) : Prop :=
  occurrences (start_marker skill_name) t = 0 ∧ occurrences (end_marker skill_name) t = 0.



(** The global rules document as the tool reads it, empty when the file does
    not exist yet. *)
Definition document (w : fs) : str := universal_newlines (default [] (global_rules w)).

(** A text that opens with [<], closes with [>] and has no other [<]: what
    both markers are when the skill name has no [<]. *)
Definition is_tag (t : str) : Prop := ∃ inner, t = lt :: inner ++ [gt] ∧ lt ∉ inner.

(** The frontmatter lines bind [k] to [v]: some line [key:val] has the key [k]
    and the value [v] once both are trimmed, the colon being the first of the
    line, and no later line has the key [k]. *)
Definition binds (lines : list str) (k v : str) : Prop :=
  ∃ l1 key val l2,
    lines = l1 ++ [key ++ colon :: val] ++ l2 ∧ (colon ∉ key) ∧
    strip key = k ∧ strip val = v ∧
    ∀ key' val', (key' ++ colon :: val') ∈ l2 → colon ∉ key' → strip key' ≠ k.



(** The content opens with [---] and holds a further [---]. *)
Definition has_frontmatter_block (content : str) : Prop :=
  ∃ a b, content = lit "---" ++ a ++ lit "---" ++ b.

(** In [F ++ "---" ++ R] no [---] starts before the one shown: it is the
    first delimiter after the opening one, and closes the frontmatter [F]. *)
Definition closes_at (F R : str) : Prop :=
  ∀ a b, F ++ lit "---" ++ R = a ++ lit "---" ++ b → length F ≤ length a.

(** No white space at either end. *)
Definition stripped (s : str) : Prop :=
  (∀ h t, s = h :: t → is_space h = false) ∧ (∀ t z, s = t ++ [z] → is_space z = false).

(** The key and the value of one frontmatter line, when it has a colon. *)
Definition line_binding (line : str) : option (str * str) :=
  match cut [colon] line with
  | Some (key, val) => Some (strip key, strip val)
  | None => None
  end.

(** The configuration [load_config] returns when there is no file:
    [DEFAULT_SOURCES]. *)
Definition default_config : config :=
  mkConfig (Some [(lit "anthropics", lit "https://github.com/anthropics/skills")]).

(** A repository with one skill, [skills/webapp-testing/SKILL.md], and an
    environment in which every git command succeeds and yields it. *)
Definition demo_skill_md : str :=
  lit "---" ++ [nl] ++ lit "name: webapp-testing" ++ [nl] ++
  lit "description: Tests web apps" ++ [nl] ++ lit "---" ++ [nl; nl] ++
  lit "# Web app testing" ++ [nl].

Definition demo_repo : repo :=
  mkRepo (λ n, if decide (n = lit "webapp-testing") then Some (Some demo_skill_md) else None)
         (λ _, None).

Definition demo_environment : environment := mkEnv (λ _, false) (λ _ _, Some demo_repo).

(** A world with nothing in it. *)
Definition empty_fs : fs := mkFs None ∅ ∅ None [].

(** A world whose global rules document is [d]. *)
Definition fs_with_document (d : str) : fs := mkFs (Some d) ∅ ∅ None [].

(** ** The configuration file and the listing commands *)

Definition space : char := 32%N.
Definition dot : char := 46%N.

(** [load_config()].  The configuration file of the world holds the JSON
    object last saved, so it reads back as it was written; without a file the
    default sources are returned. *)
Definition load_config : io config := fun w =>
  (inr (default default_config (config_file w)), w).

(** [s.ljust(width)] *)
Definition ljust (width : nat) (s : str) : str := s ++ repeat space (width - length s).

(** [command_list_sources]: it only prints; the value is the list of the
    lines printed, one per [print]. *)
Definition command_list_sources (cfg : config) : list str :=
  lit "Registered Sources:" ::
  ((λ '(name, url), lit "  " ++ ljust 15 name ++ lit " " ++ url) <$> default [] (sources cfg)).

(** The order of Python strings: by code point, a proper prefix first. *)
Fixpoint str_leb (a b : str) : bool :=
  match a, b with
  | [], _ => true
  | _ :: _, [] => false
  | x :: a', y :: b' => (x <? y)%N || ((x =? y)%N && str_leb a' b')
  end.

Definition str_le (a b : str) : Prop := str_leb a b = true.

#[global] Instance str_le_dec : RelDecision str_le.
Proof. intros a b. unfold str_le. apply _. Defined.

(** [sorted(l)] for a list of strings. *)
Definition sorted (l : list str) : list str := merge_sort str_le l.

(** [.*?] followed by the literal [close], without [re.DOTALL]: the dot takes
    any character but the line feed, and as few of them as possible.  The
    result is the text the dots matched and the rest after [close]. *)
Fixpoint dot_lazy (close s : str) : option (str * str) :=
  if startswith close s then Some ([], drop (length close) s)
  else match s with
       | [] => None
       | ch :: s' =>
           if char_eqb ch nl then None
           else match dot_lazy close s' with
                | Some (g, r) => Some (ch :: g, r)
                | None => None
                end
       end.

(** An attempt of [<!-- ANTHROPIC_SKILL_START: (.+?) -->] at the start of
    [s]: the group and the rest after the match. *)
Definition match_name (s : str) : option (str * str) :=
  if startswith (lit "<!-- ANTHROPIC_SKILL_START: ") s then
    match drop (length (lit "<!-- ANTHROPIC_SKILL_START: ")) s with
    | [] => None
    | ch :: s' =>
        if char_eqb ch nl then None
        else match dot_lazy (lit " -->") s' with
             | Some (g, r) => Some (ch :: g, r)
             | None => None
             end
    end
  else None.

(** [pattern.findall(s)]: the group of every match, left to right, the search
    resuming after the match, or one character further where no match starts.
    Every round takes at least one character, so [length s] rounds suffice. *)
Fixpoint findall_upto (fuel : nat) (s : str) : list str :=
  match fuel with
  | O => []
  | S f =>
      match match_name s with
      | Some (g, r) => g :: findall_upto f r
      | None =>
          match s with
          | [] => []
          | _ :: s' => findall_upto f s'
          end
      end
  end.

Definition findall (s : str) : list str := findall_upto (length s) s.

(** [s.endswith(suffix)] *)
Definition endswith (suffix s : str) : bool := startswith (rev suffix) (rev s).

(** [name.rfind(".")] *)
Fixpoint rfind (c : char) (s : str) : option nat :=
  match s with
  | [] => None
  | ch :: s' =>
      match rfind c s' with
      | Some i => Some (S i)
      | None => if char_eqb ch c then Some 0 else None
      end
  end.

(** [Path.stem] of a file name. *)
Definition stem (name : str) : str :=
  match rfind dot name with
  | Some i => if (0 <? i) && (i <? length name - 1) then take i name else name
  | None => name
  end.

(** The two directories [list_artifacts] looks into: [None] where the
    directory does not exist, the names of its entries otherwise. *)
Record directories := mkDirectories {
  workflows_dir : option (list str);        (* .agent/workflows *)
  rules_dir : option (list str)             (* .agent/rules *)
}.

(** One section of [list_artifacts]: the entries [*.md] of a directory in the
    order of their names, each shown by its stem. *)
Definition list_directory (d : option (list str)) : list str :=
  match d with
  | Some names =>
      (λ f, lit "  - " ++ stem f) <$> sorted (filter (λ f, endswith (lit ".md") f = true) names)
  | None => [lit "  (None)"]
  end.

(** The names [list_artifacts] shows under [INSTALLED GLOBAL RULES] for a
    document that reads as [content]. *)
Definition installed_global_rules (content : str) : list str := sorted (findall content).

(** [list_artifacts()]: it only prints; the value is the list of the lines
    printed, one per [print]. *)
Definition list_artifacts (dirs : directories) (w : fs) : list str :=
  [nl :: lit "INSTALLED WORKFLOWS:"] ++ list_directory (workflows_dir dirs) ++
  [nl :: lit "INSTALLED WORKSPACE RULES:"] ++ list_directory (rules_dir dirs) ++
  [nl :: lit "INSTALLED GLOBAL RULES:"] ++
  match global_rules w with
  | Some c =>
      match findall (universal_newlines c) with
      | [] => [lit "  (None)"]
      | matches => (λ m, lit "  - " ++ m) <$> sorted matches
      end
  | None => [lit "  (None)"]
  end.

(** *** main *)

(** The command line as [argparse] hands it over. *)
Inductive command :=
  | CmdAddSource (args : add_source_args)
  | CmdListSources
  | CmdIngest (args : ingest_args)
  | CmdList
  | CmdRemove (name : str) (type_ : artifact_type) (sc : scope).

(** [main()] after [parser.parse_args()].  The value is what the two listing
    commands print; the other commands print into the log of the world. *)
Definition main (env : environment) (dirs : directories) (cmd : command) : io (list str) :=
  config ← load_config;
  match cmd with
  | CmdAddSource args => command_add_source args config ;; mret []
  | CmdListSources => mret (command_list_sources config)
  | CmdIngest args => command_ingest env args config ;; mret []
  | CmdList => fun w => (inr (list_artifacts dirs w), w)
  | CmdRemove name type_ sc => remove_artifact name type_ sc ;; mret []
  end.

(** ** Further notions used in the statements *)

#[global] Instance target_eq_dec : EqDecision target.
Proof. solve_decision. Defined.

(** What the file [t] holds, [None] when it does not exist. *)
Definition file_at (t : target) (w : fs) : option str :=
  match t with
  | GLOBAL_RULES_FILE => global_rules w
  | WORKFLOWS_DIR n => workflows w !! n
  | WORKSPACE_RULES_DIR n => workspace_rules w !! n
  end.

(** The file an artifact of the given type and scope lives in. *)
Definition artifact_target (name : str) (type_ : artifact_type) (sc : scope) : target :=
  match type_, sc with
  | AsWorkflow, _ => WORKFLOWS_DIR name
  | AsRule, ScopeWorkspace => WORKSPACE_RULES_DIR name
  | AsRule, ScopeGlobal => GLOBAL_RULES_FILE
  end.

(** From [w] to [w'] no file but [t] has changed, the configuration file
    included, and the log has only grown. *)
Definition changes_only (t : target) (w w' : fs) : Prop :=
  config_file w' = config_file w ∧
  (∀ t', t' ≠ t → file_at t' w' = file_at t' w) ∧
  ∃ evs, log w' = log w ++ evs.

(** Lines put together, each ended by a line feed. *)
Definition join_lines (ls : list str) : str := foldr (λ l acc, l ++ nl :: acc) [] ls.

(** The lines [create_workspace_rule] adds for [activation], one by one. *)
Definition activation_lines (act : option activation) : list str :=
  match act with
  | None => []
  | Some a =>
      [lit "activation:"; lit "  type: " ++ activation_name (act_type a)] ++
      (if truthy (act_glob a) then [lit "  glob: " ++ default [] (act_glob a)] else [])
  end.

(** No line break of [str.splitlines] in [s]. *)
Definition one_line (s : str) : Prop := ∀ ch, ch ∈ s → is_linebreak ch = false.

(** * Properties *)

(** ** Prefixes and first occurrences *)

Lemma char_eqb_eq (a b : char) : char_eqb a b = true ↔ a = b.
Proof. apply N.eqb_eq. Qed.

Lemma char_eqb_refl (a : char) : char_eqb a a = true.
Proof. apply N.eqb_refl. Qed.

Lemma char_eqb_neq (a b : char) : char_eqb a b = false ↔ a ≠ b.
Proof. apply N.eqb_neq. Qed.

Lemma startswith_spec (p s : str) : startswith p s = true ↔ ∃ r, s = p ++ r.
Proof.
  revert s; induction p as [|a p IH]; intros s; simpl.
  - split; [intros _; by exists s | done].
  - destruct s as [|b s]; [split; [done | intros [r Hr]; discriminate] |].
    rewrite andb_true_iff, char_eqb_eq, IH. split.
    + intros [-> [r ->]]. by exists r.
    + intros [r Hr]. injection Hr as -> ->. eauto.
Qed.

Lemma startswith_app (p s : str) : startswith p (p ++ s) = true.
Proof. apply startswith_spec. by exists s. Qed.


Lemma startswith_weaken (p s t : str) : startswith p s = true → startswith p (s ++ t) = true.
Proof.
  rewrite !startswith_spec. intros [r ->]. exists (r ++ t). by rewrite app_assoc.
Qed.

Lemma startswith_nil_r (p : str) : p ≠ [] → startswith p [] = false.
Proof. by destruct p. Qed.

Lemma cut_Some (sep s a b : str) :
  cut sep s = Some (a, b) →
  s = a ++ sep ++ b ∧ ∀ i, i < length a → startswith sep (drop i s) = false.
Proof.
  revert a b; induction s as [|ch s IH]; intros a b; simpl.
  - destruct (startswith sep []) eqn:Hp; [|done].
    intros [= <- <-]. apply startswith_spec in Hp as [r Hr].
    split; [|simpl; lia].
    destruct sep; [by rewrite drop_0 | discriminate].
  - destruct (startswith sep (ch :: s)) eqn:Hp.
    + intros [= <- <-]. split; [|simpl; lia].
      apply startswith_spec in Hp as [r Hr]. rewrite Hr.
      by rewrite drop_app_length.
    + destruct (cut sep s) as [[a' b']|] eqn:Hc; [|done].
      intros [= <- <-]. destruct (IH _ _ eq_refl) as [-> Hfirst].
      split; [done|]. intros [|i] Hi; simpl in *; [done|]. apply Hfirst. lia.
Qed.

Lemma cut_found (sep a b : str) :
  (∀ i, i < length a → startswith sep (drop i (a ++ sep ++ b)) = false) →
  cut sep (a ++ sep ++ b) = Some (a, b).
Proof.
  induction a as [|ch a IH]; intros Hfirst.
  - simpl app. destruct (sep ++ b) as [|c r] eqn:Hs; simpl.
    + destruct sep; [|discriminate]. simpl in Hs. subst b. done.
    + rewrite <- Hs, startswith_app, drop_app_length. done.
  - simpl. specialize (Hfirst 0 ltac:(simpl; lia)) as H0. simpl in H0. rewrite H0.
    rewrite IH; [done|]. intros i Hi. apply (Hfirst (S i)). simpl. lia.
Qed.

Lemma cut_None (sep s : str) : cut sep s = None ↔ ∀ a b, s ≠ a ++ sep ++ b.
Proof.
  induction s as [|ch s IH]; simpl.
  - destruct (startswith sep []) eqn:Hp.
    + split; [done|]. intros H. exfalso. destruct sep; [|done]. by apply (H [] []).
    + split; [|done]. intros _ a b Hab. destruct a; [|done]. simpl in Hab.
      destruct sep; [done | discriminate].
  - destruct (startswith sep (ch :: s)) eqn:Hp.
    + split; [done|]. intros H. exfalso. apply startswith_spec in Hp as [r Hr].
      by apply (H [] r).
    + destruct (cut sep s) as [[a' b']|] eqn:Hc.
      * split; [done|]. intros H. exfalso. apply cut_Some in Hc as [-> _].
        by apply (H (ch :: a') b').
      * split; [|done]. intros _ a b Hab. destruct a as [|c a].
        -- simpl in Hab. rewrite Hab, startswith_app in Hp. done.
        -- injection Hab as -> ->. by apply (proj1 IH eq_refl a b).
Qed.

Lemma contains_true (sub s : str) : contains sub s = true ↔ ∃ a b, s = a ++ sub ++ b.
Proof.
  unfold contains. destruct (cut sub s) as [[a b]|] eqn:Hc.
  - split; [|done]. intros _. apply cut_Some in Hc as [-> _]. eauto.
  - split; [done|]. intros (a & b & ->). rewrite cut_None in Hc. by destruct (Hc a b).
Qed.

Lemma contains_false (sub s : str) : contains sub s = false ↔ ∀ a b, s ≠ a ++ sub ++ b.
Proof.
  rewrite <- not_true_iff_false, contains_true. split.
  - intros H a b ->. apply H. eauto.
  - intros H (a & b & ->). by apply (H a b).
Qed.

Lemma contains_char (c : char) (s : str) : contains [c] s = false ↔ c ∉ s.
Proof.
  rewrite contains_false. split.
  - intros H Hin. apply list_elem_of_split in Hin as (a & b & ->). by apply (H a b).
  - intros H a b ->. apply H. set_solver.
Qed.

(** ** Counting occurrences *)

Lemma occurrences_nil (p : str) : p ≠ [] → occurrences p [] = 0.
Proof. by destruct p. Qed.

Lemma occurrences_cons_zero (p : str) (c : char) (s : str) :
  occurrences p (c :: s) = 0 ↔ startswith p (c :: s) = false ∧ occurrences p s = 0.
Proof.
  change (occurrences p (c :: s))
    with ((if startswith p (c :: s) then 1 else 0) + occurrences p s).
  destruct (startswith p (c :: s)); split.
  - lia.
  - by intros [? _].
  - intros H. split; [done | lia].
  - intros [_ H]. lia.
Qed.

Lemma occurrences_suffix (p u s : str) : occurrences p (u ++ s) = 0 → occurrences p s = 0.
Proof.
  induction u as [|c u IH]; [done|]. simpl app. rewrite occurrences_cons_zero. intros [_ H]. auto.
Qed.

Lemma occurrences_zero (p s : str) :
  p ≠ [] → occurrences p s = 0 ↔ ∀ a b, s ≠ a ++ p ++ b.
Proof.
  intros Hp. induction s as [|c s IH].
  - rewrite occurrences_nil by done. split; [|done]. intros _ a b H.
    destruct a; [destruct p|]; done.
  - rewrite occurrences_cons_zero, IH. split.
    + intros [Hs Hn] a b Hab. destruct a as [|x a].
      * simpl in Hab. rewrite Hab, startswith_app in Hs. done.
      * injection Hab as -> ->. by apply (Hn a b).
    + intros H. split.
      * apply not_true_iff_false. intros [r Hr]%startswith_spec. by apply (H [] r).
      * intros a b ->. by apply (H (c :: a) b).
Qed.

Lemma occurrences_zero_contains (p s : str) :
  p ≠ [] → occurrences p s = 0 ↔ contains p s = false.
Proof. intros Hp. by rewrite occurrences_zero, contains_false. Qed.

(** A character that is not in [p] ends every attempt to read [p]. *)
Lemma startswith_stop (p a b : str) (ch : char) :
  ch ∉ p → startswith p (a ++ ch :: b) = startswith p a.
Proof.
  revert a; induction p as [|x p IH]; intros a Hch; [done|].
  apply not_elem_of_cons in Hch as [Hx Hp].
  destruct a as [|y a]; simpl.
  - apply andb_false_iff. left. by apply char_eqb_neq.
  - by rewrite IH.
Qed.

Lemma occurrences_app_stop (p a b : str) (ch : char) :
  p ≠ [] → ch ∉ p → occurrences p (a ++ ch :: b) = occurrences p a + occurrences p b.
Proof.
  intros Hp Hch. induction a as [|y a IH].
  - rewrite occurrences_nil by done. simpl app.
    change (occurrences p (ch :: b))
      with ((if startswith p ([] ++ ch :: b) then 1 else 0) + occurrences p b).
    rewrite startswith_stop, startswith_nil_r; done.
  - change (occurrences p ((y :: a) ++ ch :: b))
      with ((if startswith p ((y :: a) ++ ch :: b) then 1 else 0) + occurrences p (a ++ ch :: b)).
    rewrite startswith_stop, IH by done. simpl. lia.
Qed.

Lemma occurrences_cons_stop (p b : str) (ch : char) :
  p ≠ [] → ch ∉ p → occurrences p (ch :: b) = occurrences p b.
Proof.
  intros Hp Hch. pose proof (occurrences_app_stop p [] b ch Hp Hch) as H.
  by rewrite occurrences_nil in H.
Qed.

(** Text that lacks the last character of [p] cannot complete an occurrence. *)
Lemma startswith_tail (p a w : str) (z : char) :
  last p = Some z → z ∉ w → startswith p (a ++ w) = startswith p a.
Proof.
  revert a w; induction p as [|x p IH]; intros a w Hl Hz; [done|].
  destruct a as [|y a]; simpl.
  - destruct w as [|y w]; [done|]. apply not_elem_of_cons in Hz as [Hy Hw].
    destruct p as [|x' p].
    + injection Hl as ->. apply andb_false_iff. left. by apply char_eqb_neq.
    + pose proof (IH [] w Hl Hw) as H. simpl app in H.
      change (startswith (x' :: p) []) with false in H. rewrite H. apply andb_false_r.
  - destruct p as [|x' p]; [done|]. by rewrite IH.
Qed.

Lemma occurrences_tail (p a w : str) (z : char) :
  last p = Some z → z ∉ w → occurrences p (a ++ w) = occurrences p a.
Proof.
  intros Hl Hz. assert (Hp : p ≠ []) by (by destruct p).
  induction a as [|y a IH].
  - rewrite occurrences_nil by done. simpl app.
    induction w as [|y w IHw]; [by apply occurrences_nil|].
    apply not_elem_of_cons in Hz as Hz'. destruct Hz' as [_ Hw].
    apply occurrences_cons_zero. split; [|auto].
    rewrite <- (app_nil_l (y :: w)), (startswith_tail p [] (y :: w) z) by done.
    by apply startswith_nil_r.
  - change (occurrences p ((y :: a) ++ w))
      with ((if startswith p ((y :: a) ++ w) then 1 else 0) + occurrences p (a ++ w)).
    by rewrite (startswith_tail p (y :: a) w z), IH.
Qed.

(** Text that lacks the first character of [p] holds no occurrence of it. *)
Lemma occurrences_skip (h : char) (p u b : str) :
  h ∉ u → occurrences (h :: p) (u ++ b) = occurrences (h :: p) b.
Proof.
  induction u as [|y u IH]; intros Hu; [done|].
  apply not_elem_of_cons in Hu as [Hy Hu].
  change (occurrences (h :: p) ((y :: u) ++ b))
    with ((if startswith (h :: p) (y :: u ++ b) then 1 else 0) + occurrences (h :: p) (u ++ b)).
  rewrite IH by done. simpl. apply char_eqb_neq in Hy. by rewrite Hy.
Qed.

Lemma occurrences_none (h : char) (p u : str) : h ∉ u → occurrences (h :: p) u = 0.
Proof.
  intros Hu. rewrite <- (app_nil_r u), occurrences_skip by done. done.
Qed.

(** ** Tags: texts that open with the only [<] they hold *)

Lemma tag_nonempty (m : str) : is_tag m → m ≠ [].
Proof. by intros (inner & -> & _). Qed.

Lemma tag_last (m : str) : is_tag m → last m = Some gt.
Proof. intros (inner & -> & _). by rewrite app_comm_cons, last_snoc. Qed.

Lemma tag_startswith_stop (m a b : str) :
  is_tag m → a ≠ [] → startswith m (a ++ lt :: b) = startswith m a.
Proof.
  intros (inner & -> & Hin) Ha. destruct a as [|y a]; [done|]. simpl. f_equal.
  apply startswith_stop. rewrite elem_of_app, list_elem_of_singleton.
  intros [?|?]; done.
Qed.






Lemma occurrences_zero_drop (p s : str) (i : nat) :
  p ≠ [] → occurrences p s = 0 → startswith p (drop i s) = false.
Proof.
  intros Hp. revert i; induction s as [|c s IH]; intros i.
  - intros _. rewrite drop_nil. by apply startswith_nil_r.
  - rewrite occurrences_cons_zero. intros [H0 Hs]. destruct i; [done|]. simpl. auto.
Qed.

Lemma tag_cut (m a b : str) :
  is_tag m → occurrences m a = 0 → cut m (a ++ m ++ b) = Some (a, b).
Proof.
  intros Hm Ha. apply cut_found. intros i Hi.
  rewrite drop_app_le by lia.
  destruct Hm as (im & Em & Him). rewrite Em at 2. simpl.
  rewrite tag_startswith_stop.
  - apply occurrences_zero_drop; [by subst|done].
  - by exists im.
  - intros Hd. apply (f_equal length) in Hd. rewrite length_drop in Hd. simpl in Hd. lia.
Qed.

(** ** The search and the replacement loop *)

Lemma re_search_unfold (p : pattern) (s : str) :
  re_search p s =
  match match_here p s with
  | Some (x, r) => Some ([], x, r)
  | None =>
      match s with
      | [] => None
      | ch :: s' =>
          match re_search p s' with
          | Some (a, x, r) => Some (ch :: a, x, r)
          | None => None
          end
      end
  end.
Proof. by destruct s. Qed.

Lemma match_here_Some (p : pattern) (s x r : str) :
  match_here p s = Some (x, r) →
  ∃ r0, s = p_start p ++ x ++ p_end p ++ r0 ∧
        r = if p_trailing_space p then lstrip r0 else r0.
Proof.
  unfold match_here. destruct (startswith (p_start p) s) eqn:Hs; [|done].
  destruct (cut _ _) as [[x' r']|] eqn:Hc; [|done]. intros [= <- <-].
  apply startswith_spec in Hs as [t ->]. rewrite drop_app_length in Hc.
  apply cut_Some in Hc as [-> _]. eauto.
Qed.

Lemma match_here_block (p : pattern) (x post : str) :
  is_Some (match_here p (p_start p ++ x ++ p_end p ++ post)).
Proof.
  unfold match_here. rewrite startswith_app, drop_app_length.
  destruct (cut (p_end p) (x ++ p_end p ++ post)) as [[x' r']|] eqn:Hc; [eauto|].
  rewrite cut_None in Hc. by destruct (Hc x post).
Qed.

Lemma re_search_Some (p : pattern) (s a x r : str) :
  re_search p s = Some (a, x, r) →
  ∃ r0, s = a ++ p_start p ++ x ++ p_end p ++ r0 ∧
        r = if p_trailing_space p then lstrip r0 else r0.
Proof.
  revert a; induction s as [|ch s IH]; intros a; rewrite re_search_unfold.
  - destruct (match_here p []) as [[x' r']|] eqn:Hm; [|done].
    intros [= <- <- <-]. by apply match_here_Some.
  - destruct (match_here p (ch :: s)) as [[x' r']|] eqn:Hm.
    + intros [= <- <- <-]. by apply match_here_Some.
    + destruct (re_search p s) as [[[a' x'] r']|]; [|done]. intros [= <- <- <-].
      destruct (IH _ eq_refl) as (r0 & -> & Hr). eauto.
Qed.

Lemma re_search_is_Some (p : pattern) (pre x post : str) :
  is_Some (re_search p (pre ++ p_start p ++ x ++ p_end p ++ post)).
Proof.
  induction pre as [|ch pre IH]; rewrite re_search_unfold.
  - simpl app. destruct (match_here_block p x post) as [[x' r'] ->]. eauto.
  - destruct (match_here p _) as [[x' r']|]; [eauto|].
    simpl app. destruct IH as [[[a' x'] r'] ->]. eauto.
Qed.

(** The search fails exactly on the documents without a block. *)
Lemma re_search_None (p : pattern) (s : str) :
  re_search p s = None ↔ ∀ pre x post, s ≠ pre ++ p_start p ++ x ++ p_end p ++ post.
Proof.
  split.
  - intros Hn pre x post ->. destruct (re_search_is_Some p pre x post) as [y Hy]. congruence.
  - intros H. destruct (re_search p s) as [[[a x] r]|] eqn:Hs; [|done].
    apply re_search_Some in Hs as (r0 & -> & _). by destruct (H a x r0).
Qed.

Lemma re_search_no_start (p : pattern) (s : str) :
  p_start p ≠ [] → occurrences (p_start p) s = 0 → re_search p s = None.
Proof.
  intros Hp Hs. apply re_search_None. intros pre x post ->.
  pose proof (proj1 (occurrences_zero _ _ Hp) Hs) as Hn. by apply (Hn pre (x ++ p_end p ++ post)).
Qed.

(** In a text whose first start marker opens a block, the search finds that
    block. *)
Lemma re_search_found (p : pattern) (pre x post : str) :
  is_tag (p_start p) → is_tag (p_end p) →
  occurrences (p_start p) pre = 0 → occurrences (p_end p) x = 0 →
  re_search p (pre ++ p_start p ++ x ++ p_end p ++ post)
  = Some (pre, x, if p_trailing_space p then lstrip post else post).
Proof.
  intros Hs He Hpre Hx. induction pre as [|ch pre IH]; rewrite re_search_unfold.
  - simpl app. unfold match_here. by rewrite startswith_app, drop_app_length, tag_cut.
  - apply occurrences_cons_zero in Hpre as [H0 Hpre].
    rewrite <- app_comm_cons, IH by done.
    unfold match_here.
    assert (Hsw : startswith (p_start p) (ch :: pre ++ p_start p ++ x ++ p_end p ++ post) = false).
    { destruct Hs as (ins & Es & His). rewrite Es at 2. simpl app.
      change (ch :: pre ++ lt :: (ins ++ [gt]) ++ x ++ p_end p ++ post)
        with ((ch :: pre) ++ lt :: (ins ++ [gt]) ++ x ++ p_end p ++ post).
      rewrite tag_startswith_stop; [done | by exists ins | done]. }
    by rewrite Hsw.
Qed.

Lemma sub_upto_none (fuel : nat) (p : pattern) (tpl : list titem) (s : str) :
  re_search p s = None → sub_upto fuel p tpl s = s.
Proof. intros H. destruct fuel; simpl; by rewrite ?H. Qed.

Lemma expand_template_literal (repl matched : str) :
  expand_template (TLit <$> repl) matched = repl.
Proof.
  induction repl as [|c repl IH]; [done|].
  change (expand_template (TLit <$> c :: repl) matched)
    with (c :: expand_template (TLit <$> repl) matched). by rewrite IH.
Qed.

Lemma parse_template_plain (repl : str) :
  backslash ∉ repl → parse_template repl = Some (TLit <$> repl).
Proof. intros H. unfold parse_template. apply contains_char in H. by rewrite H. Qed.

Lemma lstrip_suffix (s : str) : ∃ w, s = w ++ lstrip s ∧ forallb is_space w = true.
Proof.
  induction s as [|c s (w & Hw & Hall)]; [by exists []|]. simpl.
  destruct (is_space c) eqn:Hc.
  - exists (c :: w). split; [by rewrite Hw at 1 | by simpl; rewrite Hc].
  - by exists [].
Qed.

Lemma occurrences_lstrip_zero (p s : str) : occurrences p s = 0 → occurrences p (lstrip s) = 0.
Proof.
  destruct (lstrip_suffix s) as (w & Hw & _). rewrite Hw at 1. apply occurrences_suffix.
Qed.

Lemma length_lstrip (s : str) : length (lstrip s) ≤ length s.
Proof. destruct (lstrip_suffix s) as (w & Hw & _). rewrite Hw at 2. rewrite length_app. lia. Qed.

(** A match is never empty, so the text left after it is shorter. *)
Lemma re_search_shorter (p : pattern) (s a x r : str) :
  p_start p ≠ [] → re_search p s = Some (a, x, r) → length r < length s.
Proof.
  intros Hp (r0 & -> & ->)%re_search_Some. rewrite !length_app.
  assert (0 < length (p_start p)) by (destruct (p_start p); [done | simpl; lia]).
  pose proof (length_lstrip r0). destruct (p_trailing_space p); lia.
Qed.

(** The replacement loop has rounds enough: more change nothing. *)
Lemma sub_upto_enough (p : pattern) (tpl : list titem) (f1 f2 : nat) (s : str) :
  p_start p ≠ [] → length s ≤ f1 → length s ≤ f2 →
  sub_upto f1 p tpl s = sub_upto f2 p tpl s.
Proof.
  intros Hp. revert f2 s; induction f1 as [|f1 IH]; intros f2 s H1 H2.
  - destruct s; [|simpl in H1; lia]. rewrite !sub_upto_none; [done|..];
      apply re_search_no_start; (done || by apply occurrences_nil).
  - destruct f2 as [|f2].
    { destruct s; [|simpl in H2; lia]. rewrite !sub_upto_none; [done|..];
        apply re_search_no_start; (done || by apply occurrences_nil). }
    simpl. destruct (re_search p s) as [[[a x] r]|] eqn:Hs; [|done].
    pose proof (re_search_shorter p s a x r Hp Hs). do 2 f_equal. apply IH; lia.
Qed.

Lemma cut_shorter (sep s a b : str) : sep ≠ [] → cut sep s = Some (a, b) → length b < length s.
Proof.
  intros Hsep [-> _]%cut_Some. rewrite !length_app.
  destruct sep; [done | simpl; lia].
Qed.

(** [replace] and [split_all] have rounds enough as well. *)
Lemma replace_upto_enough (old new : str) (f1 f2 : nat) (s : str) :
  old ≠ [] → length s ≤ f1 → length s ≤ f2 →
  replace_upto f1 old new s = replace_upto f2 old new s.
Proof.
  intros Ho. revert f2 s; induction f1 as [|f1 IH]; intros f2 s H1 H2.
  - destruct s; [|simpl in H1; lia]. destruct f2; simpl; [done|]. by destruct old.
  - destruct f2 as [|f2].
    { destruct s; [|simpl in H2; lia]. simpl. by destruct old. }
    simpl. destruct (cut old s) as [[a b]|] eqn:Hc; [|done].
    pose proof (cut_shorter old s a b Ho Hc). do 2 f_equal. apply IH; lia.
Qed.

Lemma split_n_enough (sep : str) (f1 f2 : nat) (s : str) :
  sep ≠ [] → length s ≤ f1 → length s ≤ f2 → split_n sep f1 s = split_n sep f2 s.
Proof.
  intros Ho. revert f2 s; induction f1 as [|f1 IH]; intros f2 s H1 H2.
  - destruct s; [|simpl in H1; lia]. destruct f2; simpl; [done|]. by destruct sep.
  - destruct f2 as [|f2].
    { destruct s; [|simpl in H2; lia]. simpl. by destruct sep. }
    simpl. destruct (cut sep s) as [[a b]|] eqn:Hc; [|done].
    pose proof (cut_shorter sep s a b Ho Hc). f_equal. apply IH; lia.
Qed.

(** One block in the text, none after it: the replacement puts [repl] where
    the block was. *)
Lemma re_sub_one (p : pattern) (repl pre x post : str) :
  is_tag (p_start p) → is_tag (p_end p) → backslash ∉ repl →
  occurrences (p_start p) pre = 0 → occurrences (p_end p) x = 0 →
  occurrences (p_start p) post = 0 →
  re_sub p repl (pre ++ p_start p ++ x ++ p_end p ++ post)
  = Some (pre ++ repl ++ if p_trailing_space p then lstrip post else post).
Proof.
  intros Hs He Hrepl Hpre Hx Hpost. unfold re_sub.
  rewrite parse_template_plain by done. f_equal.
  destruct (length (pre ++ p_start p ++ x ++ p_end p ++ post)) as [|f] eqn:Hlen.
  { rewrite !length_app in Hlen. destruct Hs as (ins & Es & _). rewrite Es in Hlen.
    simpl in Hlen. lia. }
  simpl. rewrite re_search_found by done. rewrite expand_template_literal.
  rewrite sub_upto_none; [done|]. apply re_search_no_start; [by apply tag_nonempty|].
  destruct (p_trailing_space p); [by apply occurrences_lstrip_zero | done].
Qed.

(** ** The markers *)

Section Markers.
(** A skill name without [<]: both its markers are tags. *)
Variable n : list N.
Hypothesis Hn : lt ∉ n.

Lemma start_marker_tag : is_tag (start_marker n).
Proof.
  exists (lit "!-- ANTHROPIC_SKILL_START: " ++ n ++ lit " --"). split.
  - unfold start_marker. simpl. by rewrite <- app_assoc.
  - rewrite !elem_of_app. intros [H|[H|H]]; [|done|]; revert H; by apply contains_char.
Qed.

Lemma end_marker_tag : is_tag (end_marker n).
Proof.
  exists (lit "!-- ANTHROPIC_SKILL_END: " ++ n ++ lit " --"). split.
  - unfold end_marker. simpl. by rewrite <- app_assoc.
  - rewrite !elem_of_app. intros [H|[H|H]]; [|done|]; revert H; by apply contains_char.
Qed.











End Markers.


(** ** Stripping *)


Lemma forallb_rev (f : N → bool) (s : str) : forallb f (rev s) = forallb f s.
Proof.
  induction s as [|c s IH]; [done|]. simpl. rewrite forallb_app, IH. simpl.
  rewrite andb_true_r. apply andb_comm.
Qed.

Lemma rstrip_prefix (s : str) : ∃ w, s = rstrip s ++ w ∧ forallb is_space w = true.
Proof.
  unfold rstrip. destruct (lstrip_suffix (rev s)) as (w & Hw & Hall).
  exists (rev w). split.
  - rewrite <- rev_app_distr, <- Hw. by rewrite rev_involutive.
  - by rewrite forallb_rev.
Qed.


(** ** [update_global_rule] *)

Lemma update_global_rule_run (n c : str) (w : fs) :
  let d := document w in
  let p := mkPattern (start_marker n) (end_marker n) false in
  ∃ evs,
    update_global_rule n c w =
    match re_search p d with
    | Some _ =>
        match re_sub p (new_block n c) d with
        | Some u =>
            (inr tt, mkFs (Some u) (workflows w) (workspace_rules w) (config_file w)
                          (log w ++ evs))
        | None =>
            (inl TemplateError,
             mkFs (global_rules w) (workflows w) (workspace_rules w) (config_file w)
                  (log w ++ evs))
        end
    | None =>
        (inr tt,
         mkFs (Some (d ++ (if bool_decide (strip d = []) then [] else [nl; nl]) ++ new_block n c))
              (workflows w) (workspace_rules w) (config_file w) (log w ++ evs))
    end.
Proof.
  intros d p. unfold update_global_rule, document in *.
  unfold mbind, io_bind, exists_, read_global_rules, write_text, print, mret, io_ret, raise,
    add_log, set_file.
  destruct w as [g wf wr cf lg]. simpl in *.
  destruct g as [d0|]; simpl in *.
  - fold p. subst d. destruct (re_search p (universal_newlines d0)) as [[[a x] r]|] eqn:Hs; simpl.
    + destruct (re_sub p (new_block n c) (universal_newlines d0)) eqn:Hr; simpl.
      * eexists. by rewrite <- !app_assoc.
      * by eexists.
    + eexists. by rewrite <- !app_assoc.
  - eexists. by rewrite <- !app_assoc.
Qed.

(** ** Reading a text back *)











(** The update path passes the new block to [re.sub] as a replacement
    template, so a backslash in the content is read as an escape: the two
    characters backslash-n of the content [C:\new] are written as a line feed,
    and the content [\d] makes the call raise. *)
Lemma update_global_rule_backslash :
  (let run := (update_global_rule (lit "x") (lit "a") ;;
               update_global_rule (lit "x") (lit "C:" ++ [backslash] ++ lit "new")) empty_fs in
   run.1 = inr tt ∧
   global_rules run.2
   = Some (start_marker (lit "x") ++ [nl] ++ lit "C:" ++ [nl] ++ lit "ew" ++ [nl]
           ++ end_marker (lit "x"))) ∧
  (let run := (update_global_rule (lit "x") (lit "a") ;;
               update_global_rule (lit "x") ([backslash] ++ lit "d")) empty_fs in
   run.1 = inl TemplateError ∧
   global_rules run.2 = Some (new_block (lit "x") (lit "a"))).
Proof. vm_compute. repeat split. Qed.




(** ** Collapsing runs of line feeds *)

Lemma emit_newlines_repeat (k : nat) : ∃ j, emit_newlines k = repeat nl j ∧ (0 < k → 0 < j).
Proof.
  unfold emit_newlines. destruct (3 <=? k); [exists 2 | exists k]; split; (done || lia).
Qed.

Lemma collapse_from_pending (k : nat) (s : str) : ∃ t, collapse_from (S k) s = nl :: t.
Proof.
  revert k; induction s as [|ch s IH]; intros k; simpl.
  - destruct (emit_newlines_repeat (S k)) as (j & -> & Hj).
    destruct j; [lia|]. by eexists.
  - destruct (char_eqb ch nl); [apply IH|].
    destruct (emit_newlines_repeat (S k)) as (j & -> & Hj).
    destruct j; [lia|]. by eexists.
Qed.

Lemma not_in_repeat (h : N) (j : nat) : h ≠ nl → h ∉ repeat nl j.
Proof. intros Hh Hin. apply list_elem_of_In, repeat_spec in Hin. done. Qed.

(** Collapsing neither makes nor breaks an occurrence of a text without line
    feed. *)
Lemma occurrences_collapse_from (m : str) (s : str) :
  m ≠ [] → nl ∉ m →
  (∀ a, occurrences m (a ++ collapse_from 0 s) = occurrences m (a ++ s)) ∧
  (∀ k, occurrences m (collapse_from (S k) s) = occurrences m s).
Proof.
  intros Hm Hnl. destruct m as [|h m']; [done|]. clear Hm.
  assert (Hh : h ≠ nl) by (intros ->; apply Hnl; by left).
  induction s as [|ch s [IH0 IHS]]; cbn [collapse_from].
  - split; [done|]. intros k. destruct (emit_newlines_repeat (S k)) as (j & -> & _).
    by apply occurrences_none, not_in_repeat.
  - destruct (char_eqb ch nl) eqn:Hch.
    + apply char_eqb_eq in Hch as ->. split.
      * intros a. destruct (collapse_from_pending 0 s) as [t Ht].
        pose proof (IHS 0) as H1. rewrite Ht in *.
        rewrite !occurrences_app_stop by done.
        rewrite <- H1. by rewrite occurrences_cons_stop.
      * intros k. rewrite IHS. by rewrite occurrences_cons_stop.
    + split.
      * intros a. change (emit_newlines 0) with (@nil N). cbn [app].
        rewrite (cons_middle ch a (collapse_from 0 s)), (cons_middle ch a s), !app_assoc.
        apply IH0.
      * intros k. destruct (emit_newlines_repeat (S k)) as (j & -> & _).
        rewrite occurrences_skip by by apply not_in_repeat.
        apply (IH0 [ch]).
Qed.

Lemma occurrences_collapse (m s : str) :
  m ≠ [] → nl ∉ m → occurrences m (collapse_newlines s) = occurrences m s.
Proof.
  intros Hm Hnl. apply (proj1 (occurrences_collapse_from m s Hm Hnl) []).
Qed.

Lemma collapse_from_app (k : nat) (u t : str) (h : N) :
  h ≠ nl → collapse_from k (u ++ h :: t) = collapse_from k u ++ h :: collapse_from 0 t.
Proof.
  intros Hh. revert k; induction u as [|ch u IH]; intros k; simpl.
  - apply char_eqb_neq in Hh. by rewrite Hh.
  - destruct (char_eqb ch nl); [apply IH|]. by rewrite IH, <- app_assoc.
Qed.

Lemma repeat_nl_app (k : nat) (t : str) : repeat nl k ++ nl :: t = repeat nl (S k) ++ t.
Proof. induction k as [|k IH]; [done|]. simpl in *. by rewrite IH. Qed.

Lemma no_triple_pending (k : nat) (t : str) :
  occurrences [nl; nl; nl] (repeat nl k ++ t) = 0 → emit_newlines k = repeat nl k.
Proof.
  intros H. unfold emit_newlines. destruct (3 <=? k) eqn:Hk; [|done].
  apply Nat.leb_le in Hk. destruct k as [|[|[|k]]]; try lia. simpl in H. done.
Qed.

(** A text without a run of three line feeds that ends in another character
    passes through unchanged. *)
Lemma collapse_from_keep (k : nat) (b v : str) (z : N) :
  last b = Some z → z ≠ nl →
  occurrences [nl; nl; nl] (repeat nl k ++ b) = 0 →
  collapse_from k (b ++ v) = repeat nl k ++ b ++ collapse_from 0 v.
Proof.
  revert k; induction b as [|ch b IH]; intros k Hl Hz Hno; [done|].
  simpl. destruct (char_eqb ch nl) eqn:Hch.
  - apply char_eqb_eq in Hch as ->. destruct b as [|ch' b]; [simpl in Hl; congruence|].
    rewrite repeat_nl_app in Hno. rewrite IH by done.
    by rewrite <- repeat_nl_app.
  - rewrite (no_triple_pending k _ Hno). do 2 f_equal.
    destruct b as [|ch' b]; [done|]. apply (IH 0); [done|done|].
    apply occurrences_suffix in Hno. simpl app.
    change (ch :: ch' :: b) with ([ch] ++ ch' :: b) in Hno. by apply occurrences_suffix in Hno.
Qed.

(** ** Stripping around a piece of text *)

Lemma lstrip_app_keep (u t : str) (h : N) :
  is_space h = false → lstrip (u ++ h :: t) = lstrip u ++ h :: t.
Proof.
  intros Hh. induction u as [|c u IH]; simpl; [by rewrite Hh|]. by destruct (is_space c).
Qed.

Lemma rstrip_app_keep (t v : str) (z : N) :
  is_space z = false → rstrip ((t ++ [z]) ++ v) = (t ++ [z]) ++ rstrip v.
Proof.
  intros Hz. unfold rstrip. rewrite !rev_app_distr. simpl.
  rewrite (lstrip_app_keep (rev v) (rev t) z Hz), rev_app_distr. simpl.
  by rewrite rev_involutive, <- app_assoc.
Qed.

Lemma occurs_in_app_l (b s t : str) : occurs_in b s → occurs_in b (s ++ t).
Proof. intros (u & v & ->). exists u, (v ++ t). by rewrite <- !app_assoc. Qed.

Lemma occurs_in_app_r (b s t : str) : occurs_in b t → occurs_in b (s ++ t).
Proof. intros (u & v & ->). exists (s ++ u), v. by rewrite <- !app_assoc. Qed.

Lemma occurs_in_lstrip (b s : str) (h : N) (b' : str) :
  b = h :: b' → is_space h = false → occurs_in b s → occurs_in b (lstrip s).
Proof.
  intros -> Hh (u & v & ->). exists (lstrip u), v. simpl. by apply lstrip_app_keep.
Qed.

Lemma occurs_in_rstrip (b s : str) (z : N) (b' : str) :
  b = b' ++ [z] → is_space z = false → occurs_in b s → occurs_in b (rstrip s).
Proof.
  intros -> Hz (u & v & ->). exists u, (rstrip v).
  rewrite !app_assoc, rstrip_app_keep by done. by rewrite <- !app_assoc.
Qed.

Lemma occurs_in_collapse (b s : str) (h z : N) (mid : str) :
  b = h :: mid ++ [z] → h ≠ nl → z ≠ nl → occurrences [nl; nl; nl] b = 0 →
  occurs_in b s → occurs_in b (collapse_newlines s).
Proof.
  intros -> Hh Hz Hno (u & v & ->). unfold collapse_newlines.
  exists (collapse_from 0 u), (collapse_from 0 v).
  change (u ++ (h :: mid ++ [z]) ++ v) with (u ++ h :: ((mid ++ [z]) ++ v)).
  rewrite collapse_from_app by done.
  rewrite (collapse_from_keep 0 (mid ++ [z]) v z); [done| |done|].
  - by rewrite last_snoc.
  - change (h :: mid ++ [z]) with ([h] ++ (mid ++ [z])) in Hno.
    by apply occurrences_suffix in Hno.
Qed.

(** ** [remove_artifact] on the global rules document *)

Lemma remove_global_run (n : str) (w : fs) (d0 : str) :
  global_rules w = Some d0 →
  remove_artifact n AsRule ScopeGlobal w =
  if contains (start_marker n) (document w) then
    match re_sub (mkPattern (start_marker n) (end_marker n) true) [] (document w) with
    | Some u =>
        let r := collapse_newlines (strip u ++ [nl]) in
        (inr tt, mkFs (Some r) (workflows w) (workspace_rules w) (config_file w)
                      (log w ++ [WriteText GLOBAL_RULES_FILE r; Print (MsgRemovedGlobalRule n)]))
    | None => (inl TemplateError, w)
    end
  else
    (inr tt, mkFs (Some d0) (workflows w) (workspace_rules w) (config_file w)
                  (log w ++ [Print (MsgGlobalRuleNotFound n)])).
Proof.
  intros Hd. unfold remove_artifact, document.
  unfold mbind, io_bind, exists_, read_global_rules, write_text, print, mret, io_ret, raise,
    add_log, set_file.
  destruct w as [g wf wr cf lg]. cbn [global_rules workflows workspace_rules config_file log] in *.
  subst g. rewrite bool_decide_eq_true_2 by by eexists.
  cbn [negb global_rules workflows workspace_rules config_file log default from_option id].
  destruct (contains (start_marker n) (universal_newlines d0)); cbn [negb]; [|done].
  destruct (re_sub _ [] (universal_newlines d0)); [|done].
  cbn [global_rules workflows workspace_rules config_file log].
  by rewrite <- app_assoc.
Qed.



Lemma occurrences_prefix_zero (p a w : str) :
  p ≠ [] → occurrences p (a ++ w) = 0 → occurrences p a = 0.
Proof.
  intros Hp H. apply occurrences_zero; [done|]. intros u v ->.
  pose proof (proj1 (occurrences_zero _ _ Hp) H) as Hn.
  apply (Hn u (v ++ w)). by rewrite <- !app_assoc.
Qed.

Lemma occurrences_strip_zero (p s : str) :
  p ≠ [] → occurrences p s = 0 → occurrences p (strip s) = 0.
Proof.
  intros Hp H. unfold strip. apply occurrences_lstrip_zero.
  destruct (rstrip_prefix s) as (w & Hw & _). rewrite Hw in H.
  by apply occurrences_prefix_zero in H.
Qed.

Lemma start_marker_no_nl (n : str) : nl ∉ n → nl ∉ start_marker n.
Proof.
  intros Hn. unfold start_marker. rewrite !elem_of_app.
  intros [H|[H|H]]; [|done|]; revert H; by apply contains_char.
Qed.

Lemma end_marker_no_nl (n : str) : nl ∉ n → nl ∉ end_marker n.
Proof.
  intros Hn. unfold end_marker. rewrite !elem_of_app.
  intros [H|[H|H]]; [|done|]; revert H; by apply contains_char.
Qed.

(** Joining the text before a block, which ends its line, with the text after
    it makes no occurrence of a text without line feed. *)
Lemma occurrences_join_zero (m pre post : str) :
  m ≠ [] → nl ∉ m → pre = [] ∨ last pre = Some nl →
  occurrences m pre = 0 → occurrences m post = 0 →
  occurrences m (pre ++ lstrip post) = 0.
Proof.
  intros Hm Hnl Hpre H1 H2. apply occurrences_lstrip_zero in H2.
  destruct Hpre as [-> | Hl]; [done|].
  apply last_Some in Hl as [p' ->].
  rewrite <- app_assoc. cbn [app].
  rewrite occurrences_app_stop in H1 by done. rewrite occurrences_app_stop by done.
  rewrite occurrences_nil in H1 by done. lia.
Qed.

(** The text of a block opens with [<] and closes with [>]. *)
Lemma block_shape (m y : str) :
  ∃ mid, start_marker m ++ y ++ end_marker m = lt :: mid ++ [gt].
Proof.
  exists (lit "!-- ANTHROPIC_SKILL_START: " ++ m ++ lit " -->" ++ y
          ++ lit "<!-- ANTHROPIC_SKILL_END: " ++ m ++ lit " --").
  unfold start_marker, end_marker. rewrite <- !app_assoc. reflexivity.
Qed.

(** What survives the clean-up after a removal: a text that opens with [<],
    closes with [>] and holds no run of three line feeds. *)
Lemma occurs_in_cleaned (b mid pre post : str) :
  b = lt :: mid ++ [gt] → occurrences [nl; nl; nl] b = 0 →
  occurs_in b pre ∨ occurs_in b post →
  occurs_in b (collapse_newlines (strip (pre ++ lstrip post) ++ [nl])).
Proof.
  intros Hb Hno Hin.
  apply (occurs_in_collapse b _ lt gt mid); [done..|].
  apply occurs_in_app_l. unfold strip.
  apply (occurs_in_lstrip b _ lt (mid ++ [gt])); [done..|].
  apply (occurs_in_rstrip b _ gt (lt :: mid)); [done..|].
  destruct Hin as [Hin|Hin].
  - by apply occurs_in_app_l.
  - apply occurs_in_app_r. by apply (occurs_in_lstrip b _ lt (mid ++ [gt])).
Qed.

(** C2, as amended.  Take a skill name [n] with neither [<] nor a line feed
    and a document [pre ++ START ++ x ++ END ++ post] whose only markers of
    [n] are the two shown, the start marker standing first on its line.
    Removing the global rule [n] writes the text before the block followed by
    the text after it without its leading white space, stripped, ended by one
    line feed, and with every run of three or more line feeds cut to two.
    That document holds no marker of [n], and every block of a skill that
    stood before or after the removed block and holds no run of three line
    feeds is still in it, character for character. *)
Theorem remove_global_rule_block (n : str) (w : fs) (pre x post : str) :
  lt ∉ n → nl ∉ n →
  marker_free n pre → marker_free n x → marker_free n post →
  pre = [] ∨ last pre = Some nl →
  document w = pre ++ start_marker n ++ x ++ end_marker n ++ post →
  ∃ w' r,
    remove_artifact n AsRule ScopeGlobal w = (inr tt, w') ∧
    global_rules w' = Some r ∧
    r = collapse_newlines (strip (pre ++ lstrip post) ++ [nl]) ∧
    marker_free n r ∧
    ∀ m y,
      occurrences [nl; nl; nl] (start_marker m ++ y ++ end_marker m) = 0 →
      occurs_in (start_marker m ++ y ++ end_marker m) pre
      ∨ occurs_in (start_marker m ++ y ++ end_marker m) post →
      occurs_in (start_marker m ++ y ++ end_marker m) r.
Proof.
  intros Hn Hnl [Hps Hpe] [Hxs Hxe] [Hqs Hqe] Hline Hd.
  pose proof (start_marker_tag n Hn) as Hs. pose proof (end_marker_tag n Hn) as He.
  destruct (global_rules w) as [d0|] eqn:Hg.
  2: { exfalso. unfold document in Hd. rewrite Hg in Hd. apply (f_equal length) in Hd.
       destruct Hs as (ins & Es & _). rewrite Es, !length_app in Hd. simpl in Hd. lia. }
  rewrite (remove_global_run n w d0 Hg), Hd.
  assert (Hc : contains (start_marker n)
                 (pre ++ start_marker n ++ x ++ end_marker n ++ post) = true).
  { apply contains_true. by exists pre, (x ++ end_marker n ++ post). }
  rewrite Hc.
  pose proof (re_sub_one (mkPattern (start_marker n) (end_marker n) true) [] pre x post
                Hs He ltac:(by intros ?%elem_of_nil) Hps Hxe Hqs) as Hr.
  cbn [p_start p_end p_trailing_space app] in Hr. rewrite Hr.
  eexists _, _. split; [done|]. split; [done|]. split; [done|]. split.
  - assert (Hclean : ∀ m, is_tag m → nl ∉ m →
              occurrences m pre = 0 → occurrences m post = 0 →
              occurrences m (collapse_newlines (strip (pre ++ lstrip post) ++ [nl])) = 0).
    { intros m Hm Hmnl H1 H2. pose proof (tag_nonempty m Hm) as Hne.
      rewrite occurrences_collapse by done.
      rewrite (occurrences_tail m _ [nl] gt);
        [|by apply tag_last|by intros ?%list_elem_of_singleton].
      apply occurrences_strip_zero; [done|]. by apply occurrences_join_zero. }
    split; apply Hclean; try done.
    + by apply start_marker_no_nl.
    + by apply end_marker_no_nl.
  - intros m y Hno Hin. destruct (block_shape m y) as [mid Hmid].
    by apply (occurs_in_cleaned _ mid).
Qed.

Lemma remove_global_rule_block_witness :
  ∃ w' r,
    remove_artifact (lit "demo") AsRule ScopeGlobal
      (fs_with_document
         ((new_block (lit "other") (lit "keep") ++ [nl; nl]) ++ start_marker (lit "demo")
          ++ ([nl] ++ lit "text" ++ [nl]) ++ end_marker (lit "demo") ++ []))
    = (inr tt, w') ∧
    global_rules w' = Some r ∧
    r = collapse_newlines
          (strip ((new_block (lit "other") (lit "keep") ++ [nl; nl]) ++ lstrip []) ++ [nl]) ∧
    marker_free (lit "demo") r ∧
    ∀ m y,
      occurrences [nl; nl; nl] (start_marker m ++ y ++ end_marker m) = 0 →
      occurs_in (start_marker m ++ y ++ end_marker m)
        (new_block (lit "other") (lit "keep") ++ [nl; nl])
      ∨ occurs_in (start_marker m ++ y ++ end_marker m) [] →
      occurs_in (start_marker m ++ y ++ end_marker m) r.
Proof.
  apply (remove_global_rule_block (lit "demo") _
           (new_block (lit "other") (lit "keep") ++ [nl; nl]) ([nl] ++ lit "text" ++ [nl]) []).
  - apply contains_char. reflexivity.
  - apply contains_char. reflexivity.
  - split; reflexivity.
  - split; reflexivity.
  - split; reflexivity.
  - right. reflexivity.
  - reflexivity.
Defined.

(** C2 as stated fails on the code: the clean-up after a removal cuts runs of
    line feeds everywhere, also inside the blocks of other skills.  Here the
    skill [m] was upserted with the content [a], three line feeds, [b]; after
    [n] is upserted and removed, the markers of [m] enclose [a], two line
    feeds, [b]. *)
Lemma remove_counterexample :
  let run := (update_global_rule (lit "m") (lit "a" ++ [nl; nl; nl] ++ lit "b") ;;
              update_global_rule (lit "n") (lit "x") ;;
              remove_artifact (lit "n") AsRule ScopeGlobal) empty_fs in
  run.1 = inr tt ∧
  global_rules run.2
  = Some (start_marker (lit "m") ++ [nl] ++ lit "a" ++ [nl; nl] ++ lit "b" ++ [nl]
          ++ end_marker (lit "m") ++ [nl]) ∧
  contains (new_block (lit "m") (lit "a" ++ [nl; nl; nl] ++ lit "b")) (document run.2) = false.
Proof. vm_compute. repeat split. Qed.

(** ** The frontmatter parser *)

Lemma cut_startswith (sep s : str) :
  startswith sep s = true → cut sep s = Some ([], drop (length sep) s).
Proof. intros H. destruct s; simpl; by rewrite H. Qed.

Lemma parse_content_unfold (content : str) :
  parse_content content =
  if startswith (lit "---") content then
    match cut (lit "---") (drop 3 content) with
    | Some (F, R) => mkSkill (parse_frontmatter F) (strip R)
    | None => mkSkill ∅ content
    end
  else mkSkill ∅ content.
Proof.
  unfold parse_content. destruct (startswith (lit "---") content) eqn:Hs; [|done].
  cbn [split_n]. rewrite (cut_startswith _ _ Hs).
  change (length (lit "---")) with 3. by destruct (cut (lit "---") (drop 3 content)) as [[F R]|].
Qed.

Lemma closes_at_cut (F R : str) :
  closes_at F R ↔ cut (lit "---") (F ++ lit "---" ++ R) = Some (F, R).
Proof.
  split.
  - intros Hc. apply cut_found. intros i Hi. apply not_true_iff_false.
    intros [r Hr]%startswith_spec.
    assert (Hlen : length F ≤ length (take i (F ++ lit "---" ++ R))).
    { apply (Hc _ r). rewrite <- Hr. by rewrite take_drop. }
    rewrite length_take in Hlen. lia.
  - intros Hc a b Hab. apply cut_Some in Hc as [_ Hfirst].
    destruct (decide (length F ≤ length a)) as [|Hlt]; [done|].
    specialize (Hfirst (length a) ltac:(lia)).
    rewrite Hab, drop_app_length, startswith_app in Hfirst. done.
Qed.

Lemma has_frontmatter_block_cut (content : str) :
  has_frontmatter_block content ↔
  startswith (lit "---") content = true ∧ is_Some (cut (lit "---") (drop 3 content)).
Proof.
  split.
  - intros (a & b & ->). split; [apply startswith_app|].
    change 3 with (length (lit "---")). rewrite drop_app_length.
    destruct (cut (lit "---") (a ++ lit "---" ++ b)) eqn:Hc; [eauto|].
    rewrite cut_None in Hc. by destruct (Hc a b).
  - intros [[r ->]%startswith_spec [[F R] Hc]].
    change 3 with (length (lit "---")) in Hc. rewrite drop_app_length in Hc.
    apply cut_Some in Hc as [-> _]. by exists F, R.
Qed.

(** The parser on a content with a frontmatter block. *)
Lemma parse_content_block (F R : str) :
  closes_at F R →
  parse_content (lit "---" ++ F ++ lit "---" ++ R) = mkSkill (parse_frontmatter F) (strip R).
Proof.
  intros Hc. rewrite parse_content_unfold, startswith_app.
  change 3 with (length (lit "---")). rewrite drop_app_length.
  by rewrite (proj1 (closes_at_cut F R) Hc).
Qed.

(** The parser on a content without one. *)
Lemma parse_content_plain (content : str) :
  ¬ has_frontmatter_block content → parse_content content = mkSkill ∅ content.
Proof.
  intros Hno. rewrite parse_content_unfold.
  destruct (startswith (lit "---") content) eqn:Hs; [|done].
  destruct (cut (lit "---") (drop 3 content)) as [[F R]|] eqn:Hc; [|done].
  exfalso. apply Hno, has_frontmatter_block_cut. split; [done|]. by rewrite Hc.
Qed.

Lemma lstrip_head (s : str) (h : N) (t : str) : lstrip s = h :: t → is_space h = false.
Proof.
  induction s as [|c s IH]; [done|]. simpl. destruct (is_space c) eqn:Hc; [done|].
  by intros [= <- _].
Qed.

Lemma rstrip_last (s t : str) (z : N) : rstrip s = t ++ [z] → is_space z = false.
Proof.
  unfold rstrip. intros H. apply (f_equal (@rev N)) in H.
  rewrite rev_involutive, rev_app_distr in H. simpl in H. by apply lstrip_head in H.
Qed.

Lemma strip_stripped (s : str) : stripped (strip s).
Proof.
  unfold strip. split.
  - intros h t. apply lstrip_head.
  - intros t z Ht. destruct (lstrip_suffix (rstrip s)) as (w & Hw & _).
    rewrite Ht, app_assoc in Hw. by apply rstrip_last in Hw.
Qed.

(** C10, as amended.  When the content opens with [---] and holds at least one
    further [---], the parsed body is the text after the first further [---]
    with the white space at both ends stripped; for every other content the
    parsed body is the content itself, unstripped. *)
Theorem parse_content_body (content : str) :
  (has_frontmatter_block content →
   ∃ F R, content = lit "---" ++ F ++ lit "---" ++ R ∧ closes_at F R ∧
          body (parse_content content) = strip R ∧ stripped (body (parse_content content))) ∧
  (¬ has_frontmatter_block content → body (parse_content content) = content).
Proof.
  split.
  - intros Hb. apply has_frontmatter_block_cut in Hb as [Hs [[F R] Hc]].
    apply startswith_spec in Hs as [r ->].
    change 3 with (length (lit "---")) in Hc. rewrite drop_app_length in Hc.
    pose proof (cut_Some _ _ _ _ Hc) as [-> _]. apply closes_at_cut in Hc.
    exists F, R. rewrite parse_content_block by done. cbn [body].
    repeat split; try done; apply strip_stripped.
  - intros Hno. by rewrite parse_content_plain.
Qed.

(** C10 as stated fails on the code: a content with the opening [---] and one
    further [---] (two in all, the usual [SKILL.md]) does not have two further
    delimiters, yet its body is the stripped text after the second [---], not
    the content. *)
Lemma parse_content_body_counterexample :
  let content := lit "---" ++ [nl] ++ lit "name: x" ++ [nl] ++ lit "---" ++ [nl]
                 ++ lit " Body " ++ [nl] in
  occurrences (lit "---") content = 2 ∧
  body (parse_content content) = lit "Body".
Proof. vm_compute. split; reflexivity. Qed.

(** ** Frontmatter lines *)

Lemma cut_char (c : N) (key val : str) : c ∉ key → cut [c] (key ++ c :: val) = Some (key, val).
Proof.
  induction key as [|x key IH]; intros Hc.
  - simpl. by rewrite char_eqb_refl.
  - apply not_elem_of_cons in Hc as [Hx Hkey]. simpl.
    apply char_eqb_neq in Hx. rewrite Hx. simpl. by rewrite IH.
Qed.

Lemma cut_char_inv (c : N) (s key val : str) :
  cut [c] s = Some (key, val) → s = key ++ c :: val ∧ c ∉ key.
Proof.
  revert key; induction s as [|x s IH]; intros key; [done|]. simpl.
  destruct (char_eqb c x) eqn:Hx; simpl.
  - intros [= <- <-]. apply char_eqb_eq in Hx as ->. split; [done | by intros ?%elem_of_nil].
  - destruct (cut [c] s) as [[a b]|]; [|done]. intros [= <- <-].
    destruct (IH _ eq_refl) as [-> Hc]. split; [done|].
    apply char_eqb_neq in Hx. by apply not_elem_of_cons.
Qed.

Lemma line_binding_Some (line k v : str) :
  line_binding line = Some (k, v) ↔
  ∃ key val, line = key ++ colon :: val ∧ (colon ∉ key) ∧ strip key = k ∧ strip val = v.
Proof.
  unfold line_binding. split.
  - destruct (cut [colon] line) as [[key val]|] eqn:Hc; [|done]. intros [= <- <-].
    apply cut_char_inv in Hc as [-> Hk]. by exists key, val.
  - intros (key & val & -> & Hk & <- & <-). by rewrite cut_char.
Qed.

Lemma parse_line_spec (fm : gmap (list N) (list N)) (line : str) :
  parse_line fm line =
  match line_binding line with
  | Some (k, v) => <[k := v]> fm
  | None => fm
  end.
Proof.
  unfold parse_line, contains, line_binding. cbn [split_n].
  by destruct (cut [colon] line) as [[key val]|].
Qed.

(** [binds] in terms of the binding of each line. *)
Lemma binds_alt (lines : list (list N)) (k v : str) :
  binds lines k v ↔
  ∃ l1 x l2, lines = l1 ++ [x] ++ l2 ∧ line_binding x = Some (k, v) ∧
             ∀ y v', y ∈ l2 → line_binding y ≠ Some (k, v').
Proof.
  split.
  - intros (l1 & key & val & l2 & -> & Hk & Hkey & Hval & Hlater).
    exists l1, (key ++ colon :: val), l2. split; [done|]. split.
    + apply line_binding_Some. by exists key, val.
    + intros y v' Hy (key' & val' & -> & Hk' & Hkey' & _)%line_binding_Some.
      by apply (Hlater key' val').
  - intros (l1 & x & l2 & -> & (key & val & -> & Hk & Hkey & Hval)%line_binding_Some & Hlater).
    exists l1, key, val, l2. repeat split; try done.
    intros key' val' Hin Hk' Hkey'. apply (Hlater _ (strip val') Hin).
    apply line_binding_Some. by exists key', val'.
Qed.

Lemma snoc_eq_middle {A} (l l1 l2 : list A) (x y : A) :
  l ++ [x] = l1 ++ [y] ++ l2 →
  (l2 = [] ∧ l1 = l ∧ y = x) ∨ (∃ l2', l2 = l2' ++ [x] ∧ l = l1 ++ [y] ++ l2').
Proof.
  destruct l2 as [|z l2' _] using rev_ind; intros H.
  - left. rewrite app_nil_r in H. apply app_inj_tail in H as [-> ->]. done.
  - right. rewrite !app_assoc in H. apply app_inj_tail in H as [-> ->].
    exists l2'. by rewrite <- !app_assoc.
Qed.

(** The dictionary the loop builds holds, for each key, the value of the last
    line with that key. *)
Lemma parse_lines_binds (lines : list (list N)) (k v : str) :
  foldl parse_line ∅ lines !! k = Some v ↔ binds lines k v.
Proof.
  rewrite binds_alt. induction lines as [|x l IH] using rev_ind.
  - simpl. rewrite lookup_empty. split; [done|].
    intros (l1 & x & l2 & H & _). by destruct l1.
  - rewrite foldl_app. simpl. rewrite parse_line_spec.
    assert (Hkeep : (∀ v', line_binding x ≠ Some (k, v')) →
      (∃ l1 y l2, l = l1 ++ [y] ++ l2 ∧ line_binding y = Some (k, v) ∧
                  ∀ z v', z ∈ l2 → line_binding z ≠ Some (k, v')) ↔
      (∃ l1 y l2, l ++ [x] = l1 ++ [y] ++ l2 ∧ line_binding y = Some (k, v) ∧
                  ∀ z v', z ∈ l2 → line_binding z ≠ Some (k, v'))).
    { intros Hx. split.
      - intros (l1 & y & l2 & -> & Hy & Hlater). exists l1, y, (l2 ++ [x]).
        split; [by rewrite <- !app_assoc|]. split; [done|].
        intros z v' [Hz | ->%list_elem_of_singleton]%elem_of_app; [by apply Hlater | apply Hx].
      - intros (l1 & y & l2 & Heq & Hy & Hlater).
        apply snoc_eq_middle in Heq as [(-> & -> & ->) | (l2' & -> & ->)].
        + by destruct (Hx v).
        + exists l1, y, l2'. split; [done|]. split; [done|].
          intros z v' Hz. apply Hlater, elem_of_app. by left. }
    destruct (line_binding x) as [[k' v']|] eqn:Hx.
    + destruct (decide (k' = k)) as [->|Hne].
      * rewrite lookup_insert_eq. split.
        -- intros [= ->]. exists l, x, []. split; [done|]. split; [done|].
           by intros y v' ?%elem_of_nil.
        -- intros (l1 & y & l2 & Heq & Hy & Hlater).
           apply snoc_eq_middle in Heq as [(-> & -> & ->) | (l2' & -> & ->)].
           ++ congruence.
           ++ exfalso. apply (Hlater x v'); [|done]. apply elem_of_app. right. by left.
      * rewrite lookup_insert_ne by done. rewrite IH. apply Hkeep. congruence.
    + rewrite IH. by apply Hkeep.
Qed.

(** C4, as amended.  The parser reads a frontmatter exactly when the content
    opens with the three characters [---] (a whole delimiter line is not
    needed) and holds a further [---]: for every other content the result is
    the empty mapping and the content as the body.  Otherwise the content is
    cut at its first two [---]: the body is the stripped text after the
    second, and the mapping sends a key to a value exactly when some line of
    the text between the two is [key:value] (the colon being its first), the
    key and value trimmed, and no later line has that key. *)
Theorem parse_content_spec (content : str) :
  (¬ has_frontmatter_block content → parse_content content = mkSkill ∅ content) ∧
  (∀ F R,
     content = lit "---" ++ F ++ lit "---" ++ R → closes_at F R →
     body (parse_content content) = strip R ∧
     ∀ k v, frontmatter (parse_content content) !! k = Some v ↔ binds (splitlines F) k v).
Proof.
  split; [apply parse_content_plain|].
  intros F R -> Hc. rewrite parse_content_block by done. split; [done|].
  intros k v. apply parse_lines_binds.
Qed.

(** C4 as stated fails on the code: the content below does not open with a
    delimiter line (it is one line, which is not [---]), yet the parser reads
    the frontmatter [a: b] from it. *)
Lemma parse_content_counterexample :
  let content := lit "---a: b---c" in
  splitlines content = [content] ∧
  frontmatter (parse_content content) !! lit "a" = Some (lit "b") ∧
  body (parse_content content) = lit "c".
Proof. vm_compute. repeat split. Qed.

(** ** The workflow writer *)




(** ** [command_ingest] *)

Lemma add_log_add_log (w : fs) (a b : list event) :
  add_log (add_log w a) b = add_log w (a ++ b).
Proof. unfold add_log. simpl. by rewrite app_assoc. Qed.

Lemma add_log_nil (w : fs) : add_log w [] = w.
Proof. destruct w. unfold add_log. simpl. by rewrite app_nil_r. Qed.


Lemma written_in_prints (msgs : list message) : written_in (Print <$> msgs) = [].
Proof. by induction msgs. Qed.





Lemma written_add_log (w : fs) (evs : list event) :
  written (add_log w evs) = written w ++ written_in evs.
Proof. unfold written, written_in. simpl. apply omap_app. Qed.

(** C9.  With no [--source] and a configuration whose [sources] mapping is
    empty, [command_ingest] raises [IndexError] (the first key of an empty
    list of keys) before it prints or writes anything. *)
Theorem command_ingest_no_sources (env : environment) (args : ingest_args) (cfg : config)
    (w : fs) :
  truthy (in_source args) = false → default [] (sources cfg) = [] →
  command_ingest env args cfg w = (inl IndexError, w).
Proof.
  intros Hs Hc. unfold command_ingest, select_source. by rewrite Hs, Hc.
Qed.

Lemma command_ingest_no_sources_witness :
  command_ingest demo_environment
    (mkIngestArgs (lit "webapp-testing") AsWorkflow None ScopeWorkspace None None)
    (mkConfig (Some [])) empty_fs
  = (inl IndexError, empty_fs).
Proof.
  apply (command_ingest_no_sources demo_environment
           (mkIngestArgs (lit "webapp-testing") AsWorkflow None ScopeWorkspace None None)
           (mkConfig (Some [])) empty_fs); reflexivity.
Defined.

Lemma io_bind_run {A B} (m : io A) (f : A → io B) (w : fs) :
  (m ≫= f) w = match m w with
                | (inr x, w') => f x w'
                | (inl e, w') => (inl e, w')
                end.
Proof. reflexivity. Qed.

Lemma select_source_cases (args : ingest_args) (srcs : dict) (w : fs) :
  (∃ e, select_source args srcs w = (inl e, w)) ∨
  (∃ s, select_source args srcs w = (inr None, add_log w [Print (ErrSourceNotFound s)])) ∨
  (∃ n u, select_source args srcs w = (inr (Some (n, u)), w)).
Proof.
  unfold select_source, mbind, io_bind, mret, io_ret, raise, print.
  destruct (truthy (in_source args)).
  - destruct (dict_get srcs _); eauto.
  - destruct (bool_decide _).
    + destruct (dict_get srcs _); eauto.
    + destruct srcs as [|[k u] srcs]; [eauto|]. destruct (dict_get _ _); eauto.
Qed.







(** ** [command_add_source] *)

(** C8 fails on the code, which deletes every [.git] of the last path segment
    and not only a final one: the repository [octocat.github.io] is registered
    under the name [octocathub.io]. *)
Lemma add_source_name_github_io :
  let args := mkAddSourceArgs (lit "https://github.com/octocat/octocat.github.io") None in
  source_name_of args = lit "octocathub.io" ∧
  config_file (command_add_source args default_config empty_fs).2
  = Some (mkConfig (Some [(lit "anthropics", lit "https://github.com/anthropics/skills");
                          (lit "octocathub.io",
                           lit "https://github.com/octocat/octocat.github.io")])).
Proof. vm_compute. split; reflexivity. Qed.

(** Where the last path segment holds [.git] at its end only, the name is
    that segment without it. *)
Lemma add_source_name_suffix :
  source_name_of (mkAddSourceArgs (lit "https://github.com/anthropics/skills.git") None)
  = lit "skills" ∧
  source_name_of (mkAddSourceArgs (lit "https://github.com/anthropics/skills") None)
  = lit "skills".
Proof. vm_compute. split; reflexivity. Qed.

Lemma replace_upto_nil (f : nat) (old new : str) : old ≠ [] → replace_upto f old new [] = [].
Proof. intros Ho. destruct f; simpl; [done|]. by destruct old. Qed.

Lemma replace_upto_S (f : nat) (old new s : str) :
  replace_upto (S f) old new s
  = match cut old s with
    | None => s
    | Some (a, b) => a ++ new ++ replace_upto f old new b
    end.
Proof. reflexivity. Qed.

Lemma split_n_last (c : char) (f : nat) (s base seg : str) :
  length s ≤ f → s = base ++ c :: seg → c ∉ seg → last (split_n [c] f s) = Some seg.
Proof.
  revert s base. induction f as [|f IH]; intros s base Hf -> Hseg.
  { rewrite length_app in Hf. simpl in Hf. lia. }
  simpl split_n. destruct (cut [c] (base ++ c :: seg)) as [[a b]|] eqn:Hc.
  2: { exfalso. exact (proj1 (cut_None _ _) Hc base seg eq_refl). }
  assert (Hlen : length b < length (base ++ c :: seg)) by (by apply (cut_shorter [c] _ a)). rewrite length_app in Hlen, Hf. simpl in Hlen, Hf.
  apply cut_char_inv in Hc as [Hc Ha].
  assert (Hb : b = seg ∨ ∃ base', b = base' ++ c :: seg).
  { clear -Hc Ha. revert base Hc. induction a as [|x a IHa]; intros base Hc.
    - destruct base as [|y base]; simpl in Hc; injection Hc; eauto.
    - destruct base as [|y base]; simpl in Hc; injection Hc as <- Hc.
      + exfalso. apply Ha. left.
      + apply IHa with base; [|done]. intros ?. apply Ha. by right. }
  assert (Hne : ∀ g t, split_n [c] g t ≠ []) by (intros [|g] t; simpl; [done | by repeat case_match]).
  destruct (split_n [c] f b) as [|y l] eqn:Hs; [by apply Hne in Hs|].
  change (last (a :: y :: l)) with (last (y :: l)). rewrite <- Hs.
  destruct Hb as [->|[base' ->]].
  - assert (cut [c] seg = None) as Hn by (by apply contains_char in Hseg; unfold contains in Hseg; destruct (cut [c] seg)).
    destruct f; simpl; [done | by rewrite Hn].
  - apply IH with base'; [lia | done..].
Qed.

(** The name [command_add_source] gives a source that comes without one: where
    the text after the last [/] of the URL is [seg] or [seg.git], and [seg]
    itself holds no [.git], the name is [seg]. *)
Theorem source_name_of_segment (base seg : str) :
  slash ∉ seg → occurrences (lit ".git") seg = 0 →
  source_name_of (mkAddSourceArgs (base ++ [slash] ++ seg) None) = seg ∧
  source_name_of (mkAddSourceArgs (base ++ [slash] ++ seg ++ lit ".git") None) = seg.
Proof.
  intros Hs Hg. unfold source_name_of, split_all. cbn [truthy as_name as_url].
  assert (Hdot : lit ".git" ≠ []) by done.
  split.
  - rewrite (split_n_last slash _ _ base seg); [|done..]. cbn [default from_option id].
    unfold replace. destruct (length seg) as [|f]; [done|]. rewrite replace_upto_S.
    by rewrite (proj2 (cut_None _ _) (proj1 (occurrences_zero _ _ Hdot) Hg)).
  - rewrite (split_n_last slash _ _ base (seg ++ lit ".git")); [|done|done|].
    2: { intros [?|Hin]%elem_of_app; [done|]. by apply (proj1 (contains_char slash (lit ".git"))) in Hin. }
    cbn [default from_option id]. unfold replace.
    rewrite length_app. replace (length seg + length (lit ".git")) with (S (length seg + 3)) by (vm_compute length; lia).
    rewrite replace_upto_S.
    replace (cut (lit ".git") (seg ++ lit ".git")) with (Some (seg, @nil N)).
    { rewrite replace_upto_nil by done. by rewrite !app_nil_r. }
    symmetry. rewrite <- (app_nil_r (lit ".git")) at 2. apply cut_found.
    intros i Hi. rewrite app_nil_r, drop_app_le by lia.
    pose proof (occurrences_zero_drop _ _ i Hdot Hg) as Hd.
    destruct (drop i seg) as [|x t] eqn:Ht.
    { apply (f_equal length) in Ht. rewrite length_drop in Ht. simpl in Ht. lia. }
    change (lit ".git") with (46%N :: lit "git") in *.
    change (startswith (46%N :: lit "git") (x :: t))
      with (char_eqb 46%N x && startswith (lit "git") t) in Hd.
    change (startswith (46%N :: lit "git") ((x :: t) ++ 46%N :: lit "git"))
      with (char_eqb 46%N x && startswith (lit "git") (t ++ 46%N :: lit "git")).
    rewrite startswith_stop; [done|]. by apply (proj1 (contains_char _ _)).
Qed.

Lemma source_name_of_segment_witness :
  source_name_of (mkAddSourceArgs (lit "https://github.com/anthropics/my.skills.git") None)
  = lit "my.skills".
Proof.
  apply (source_name_of_segment (lit "https://github.com/anthropics") (lit "my.skills")).
  - by apply (proj1 (contains_char _ _)).
  - reflexivity.
Defined.

(** Removing a workflow: the file [name] of the workflows directory is
    deleted when it exists, a message says which of the two happened, and no
    other file changes. *)
Theorem remove_workflow_file (name : str) (sc : scope) (w : fs) :
  ∃ w',
    remove_artifact name AsWorkflow sc w = (inr tt, w') ∧
    workflows w' = delete name (workflows w) ∧
    global_rules w' = global_rules w ∧
    workspace_rules w' = workspace_rules w ∧
    config_file w' = config_file w ∧
    log w' = log w ++ (if bool_decide (is_Some (workflows w !! name))
                       then [Unlink (WORKFLOWS_DIR name); Print (MsgRemovedWorkflow name)]
                       else [Print (MsgWorkflowNotFound name)]).
Proof.
  unfold remove_artifact. rewrite io_bind_run. cbn [exists_].
  destruct (bool_decide (is_Some (workflows w !! name))) eqn:Hp.
  - rewrite io_bind_run. unfold unlink, print. eexists. split; [reflexivity|].
    cbn. rewrite <- app_assoc. by repeat split.
  - unfold print. eexists. split; [reflexivity|]. cbn. repeat split.
    apply bool_decide_eq_false in Hp. symmetry. apply delete_id.
    by apply eq_None_not_Some.
Qed.

(** ** The sources of the configuration *)

Lemma dict_get_set_eq (d : dict) (k v : str) : dict_get (dict_set d k v) k = Some v.
Proof.
  induction d as [|[k' v'] d IH]; simpl.
  - by rewrite decide_True.
  - destruct (decide (k' = k)) as [->|Hne]; simpl.
    + by rewrite decide_True.
    + by rewrite decide_False.
Qed.

Lemma dict_get_set_ne (d : dict) (k v k0 : str) :
  k0 ≠ k → dict_get (dict_set d k v) k0 = dict_get d k0.
Proof.
  intros Hne. induction d as [|[k' v'] d IH]; simpl.
  - by rewrite decide_False.
  - destruct (decide (k' = k)) as [->|Hk]; simpl.
    + by rewrite !decide_False.
    + destruct (decide (k' = k0)); [done | exact IH].
Qed.

Lemma dict_set_keys (d : dict) (k v : str) :
  (dict_set d k v).*1 = match dict_get d k with Some _ => d.*1 | None => d.*1 ++ [k] end.
Proof.
  induction d as [|[k' v'] d IH]; csimpl; [done|].
  destruct (decide (k' = k)) as [->|Hk]; csimpl; [done|].
  rewrite IH. by destruct (dict_get d k).
Qed.

Lemma dict_get_head (k v : str) (d : dict) : dict_get ((k, v) :: d) k = Some v.
Proof. simpl. by rewrite decide_True. Qed.

(** [add-source]: with a [sources] mapping in the configuration, the saved
    configuration maps the name of the source to the URL, every other name to
    what it was mapped to, and lists the names in their old order, a new name
    last; no other file changes.  Without a [sources] mapping the handler
    raises [KeyError] and saves nothing. *)
Theorem command_add_source_saves (args : add_source_args) (cfg : config) (w : fs) :
  match sources cfg with
  | None => command_add_source args cfg w = (inl KeyError, w)
  | Some srcs =>
      ∃ srcs' w',
        command_add_source args cfg w = (inr tt, w') ∧
        config_file w' = Some (mkConfig (Some srcs')) ∧
        dict_get srcs' (source_name_of args) = Some (as_url args) ∧
        (∀ k, k ≠ source_name_of args → dict_get srcs' k = dict_get srcs k) ∧
        srcs'.*1 = match dict_get srcs (source_name_of args) with
                   | Some _ => srcs.*1
                   | None => srcs.*1 ++ [source_name_of args]
                   end ∧
        global_rules w' = global_rules w ∧ workflows w' = workflows w ∧
        workspace_rules w' = workspace_rules w
  end.
Proof.
  unfold command_add_source. destruct (sources cfg) as [srcs|]; [|done].
  eexists _, _. split; [reflexivity|]. cbn.
  split; [done|]. split; [apply dict_get_set_eq|].
  split; [intros k Hk; by apply dict_get_set_ne|]. split; [apply dict_set_keys|done].
Qed.

(** Adding a source does not change which source [ingest] takes when it is
    given none, as long as there was a source before and the new one is not
    called [anthropics]: the same name is chosen, with the same URL unless
    that very name was added again. *)
Theorem add_source_keeps_default (a : add_source_args) (i : ingest_args) (srcs : dict) (w : fs) :
  truthy (in_source i) = false → srcs ≠ [] → source_name_of a ≠ lit "anthropics" →
  ∃ k u u',
    select_source i srcs w = (inr (Some (k, u)), w) ∧
    select_source i (dict_set srcs (source_name_of a) (as_url a)) w = (inr (Some (k, u')), w) ∧
    (k ≠ source_name_of a → u' = u).
Proof.
  intros Hsrc Hne Hname. unfold select_source. rewrite Hsrc, !io_bind_run.
  rewrite (dict_get_set_ne srcs _ _ (lit "anthropics")) by done.
  destruct (dict_get srcs (lit "anthropics")) as [ua|] eqn:Ha.
  - rewrite bool_decide_eq_true_2 by by eexists. unfold mret, io_ret.
    rewrite (dict_get_set_ne srcs _ _ (lit "anthropics")) by done. rewrite Ha.
    by eexists _, _, _.
  - rewrite bool_decide_eq_false_2 by by intros [? ?].
    destruct srcs as [|[k u] srcs]; [done|]. unfold mret, io_ret.
    rewrite dict_get_head. cbn [dict_set].
    destruct (decide (k = source_name_of a)) as [->|Hk].
    + rewrite dict_get_head. eexists _, _, _. by repeat split.
    + rewrite dict_get_head. eexists _, _, _. by repeat split.
Qed.

Lemma add_source_keeps_default_witness :
  ∃ k u u',
    select_source (mkIngestArgs (lit "s") AsWorkflow None ScopeWorkspace None None)
      [(lit "mine", lit "u1")] empty_fs = (inr (Some (k, u)), empty_fs) ∧
    select_source (mkIngestArgs (lit "s") AsWorkflow None ScopeWorkspace None None)
      (dict_set [(lit "mine", lit "u1")]
         (source_name_of (mkAddSourceArgs (lit "https://example.org/other.git") None))
         (as_url (mkAddSourceArgs (lit "https://example.org/other.git") None))) empty_fs
    = (inr (Some (k, u')), empty_fs) ∧
    (k ≠ source_name_of (mkAddSourceArgs (lit "https://example.org/other.git") None) → u' = u).
Proof.
  apply (add_source_keeps_default
           (mkAddSourceArgs (lit "https://example.org/other.git") None)
           (mkIngestArgs (lit "s") AsWorkflow None ScopeWorkspace None None)
           [(lit "mine", lit "u1")] empty_fs); [reflexivity | done | by vm_compute].
Defined.

(** ** What a command leaves alone *)

Lemma changes_only_refl (t : target) (w : fs) : changes_only t w w.
Proof. repeat split. exists []. by rewrite app_nil_r. Qed.

Lemma changes_only_trans (t : target) (w1 w2 w3 : fs) :
  changes_only t w1 w2 → changes_only t w2 w3 → changes_only t w1 w3.
Proof.
  intros (Hc & Hf & evs & Hl) (Hc' & Hf' & evs' & Hl'). split; [congruence|]. split.
  - intros t' Ht. rewrite Hf', Hf; done.
  - exists (evs ++ evs'). by rewrite Hl', Hl, app_assoc.
Qed.

Lemma changes_only_add_log (t : target) (w : fs) (evs : list event) :
  changes_only t w (add_log w evs).
Proof. split; [done|]. split; [by intros [] ?|]. by exists evs. Qed.

Lemma file_at_add_log (t : target) (w : fs) (evs : list event) :
  file_at t (add_log w evs) = file_at t w.
Proof. by destruct t. Qed.

Lemma file_at_set_file (t : target) (c : option (list N)) (w : fs) :
  file_at t (set_file t c w) = c.
Proof. destruct t; cbn; [done|apply lookup_partial_alter_eq..]. Qed.

Lemma file_at_set_file_ne (t t' : target) (c : option (list N)) (w : fs) :
  t' ≠ t → file_at t' (set_file t c w) = file_at t' w.
Proof.
  intros Hne. destruct t, t'; cbn; try done.
  - apply lookup_partial_alter_ne. congruence.
  - apply lookup_partial_alter_ne. congruence.
Qed.

Lemma changes_only_set_file (t : target) (c : option (list N)) (w : fs) :
  changes_only t w (set_file t c w).
Proof.
  split; [by destruct t|]. split; [intros t' Ht; by apply file_at_set_file_ne|].
  exists []. rewrite app_nil_r. by destruct t.
Qed.

Lemma changes_only_write (t : target) (c : option (list N)) (w : fs) (evs : list event) :
  changes_only t w (add_log (set_file t c w) evs).
Proof.
  eapply changes_only_trans; [apply changes_only_set_file | apply changes_only_add_log].
Qed.

(** Nothing was deleted from [w] to [w']. *)
Lemma kept_set_file (t : target) (c : list N) (w : fs) (evs : list event) (t' : target) :
  is_Some (file_at t' w) → is_Some (file_at t' (add_log (set_file t (Some c) w) evs)).
Proof.
  intros H. rewrite file_at_add_log. destruct (decide (t' = t)) as [->|Hne].
  - rewrite file_at_set_file. by eexists.
  - by rewrite file_at_set_file_ne.
Qed.

Lemma changes_only_mkFs (w : fs) (g : option (list N)) (evs : list event) :
  changes_only GLOBAL_RULES_FILE w
    (mkFs g (workflows w) (workspace_rules w) (config_file w) (log w ++ evs)).
Proof. split; [done|]. split; [by intros [] ?|]. by exists evs. Qed.






(** Whatever happens, [update_global_rule] changes no file but the global
    rules file and deletes nothing. *)
Lemma update_global_rule_changes (n c : str) (w : fs) :
  changes_only GLOBAL_RULES_FILE w (update_global_rule n c w).2 ∧
  ∀ t, is_Some (file_at t w) → is_Some (file_at t (update_global_rule n c w).2).
Proof.
  destruct (update_global_rule_run n c w) as [evs Hrun]. cbn zeta in Hrun. rewrite Hrun.
  destruct (re_search _ _); [destruct (re_sub _ _ _)|]; cbn [snd];
    (split; [apply changes_only_mkFs|]); by intros [] ?.
Qed.

Lemma write_artifact_changes (args : ingest_args) (name : str) (data : skill) (w : fs) :
  changes_only (artifact_target name (in_as_type args) (in_scope args)) w
    (write_artifact args name data w).2 ∧
  ∀ t, is_Some (file_at t w) → is_Some (file_at t (write_artifact args name data w).2).
Proof.
  unfold write_artifact, artifact_target.
  assert (Hrule : ∀ act,
    changes_only (WORKSPACE_RULES_DIR name) w (create_workspace_rule name data act w).2 ∧
    ∀ t, is_Some (file_at t w) → is_Some (file_at t (create_workspace_rule name data act w).2)).
  { intros act. unfold create_workspace_rule. rewrite io_bind_run.
    unfold write_text, print. rewrite add_log_add_log. cbn [snd].
    split; [apply changes_only_write | intros t; apply kept_set_file]. }
  destruct (in_as_type args).
  - unfold create_workflow. rewrite io_bind_run.
    unfold write_text, print. rewrite add_log_add_log. cbn [snd].
    split; [apply changes_only_write | intros t; apply kept_set_file].
  - destruct (in_scope args).
    + unfold create_rule_global. apply update_global_rule_changes.
    + destruct (in_activation args) as [[]|]; try apply Hrule.
      destruct (negb _); [|apply Hrule]. unfold print. cbn [snd].
      split; [apply changes_only_add_log|]. intros t. by rewrite file_at_add_log.
Qed.

Lemma select_source_Some (args : ingest_args) (srcs : dict) (w : fs) (n u : str) (w' : fs) :
  select_source args srcs w = (inr (Some (n, u)), w') →
  w' = w ∧ dict_get srcs n = Some u ∧
  (truthy (in_source args) = true → in_source args = Some n).
Proof.
  unfold select_source, mbind, io_bind, mret, io_ret, raise, print.
  destruct (truthy (in_source args)) eqn:Ht.
  - destruct (in_source args) as [s|]; [|done]. cbn [default from_option id].
    destruct (dict_get srcs s) eqn:Hg; [|done]. intros [= <- <- <-]. done.
  - destruct (bool_decide _).
    + destruct (dict_get srcs _) eqn:Hg; [|done]. intros [= <- <- <-]. done.
    + destruct srcs as [|[k v] srcs]; [done|].
      destruct (dict_get _ _) eqn:Hg; [|done]. intros [= <- <- <-]. done.
Qed.

(** The ways [command_ingest] ends: after messages only, or in
    [write_artifact] with the parsed [SKILL.md] of a skill found in the
    repository that git has delivered for a registered source. *)
Lemma command_ingest_inv (env : environment) (args : ingest_args) (cfg : config) (w : fs) :
  (∃ r msgs, command_ingest env args cfg w = (r, add_log w (Print <$> msgs))) ∨
  (∃ name url rp content first,
     dict_get (default [] (sources cfg)) name = Some url ∧
     (truthy (in_source args) = true → in_source args = Some name) ∧
     git env name url = Some rp ∧
     (in_skills rp (in_skill_name args) = Some (Some content) ∨
      (in_skills rp (in_skill_name args) = None ∧
       at_top rp (in_skill_name args) = Some (Some content))) ∧
     command_ingest env args cfg w
     = write_artifact args (in_skill_name args) (parse_content content)
         (add_log w [Print first])).
Proof.
  unfold command_ingest. rewrite io_bind_run.
  destruct (select_source args (default [] (sources cfg)) w) as [[e|[[n u]|]] w0] eqn:Hsel.
  - destruct (select_source_cases args (default [] (sources cfg)) w)
      as [[e' He] | [[s' He] | (n' & u' & He)]]; rewrite He in Hsel; try done.
    injection Hsel as <- <-. left. exists (inl e'), []. by rewrite add_log_nil.
  - apply select_source_Some in Hsel as (-> & Hget & Hsrc).
    rewrite io_bind_run. unfold ensure_repo_synced. rewrite io_bind_run.
    set (first := if cached env n then MsgUpdating n u else MsgCloning n u).
    assert (Hfirst : (if cached env n then print (MsgUpdating n u) else print (MsgCloning n u)) w
                     = (inr tt, add_log w [Print first])).
    { subst first. by destruct (cached env n). }
    rewrite Hfirst. destruct (git env n u) as [rp|] eqn:Hgit.
    + unfold mret, io_ret.
      destruct (in_skills rp (in_skill_name args)) as [[content|]|] eqn:Hin.
      * right. exists n, u, rp, content, first. repeat split; try done. by left.
      * left. exists (inr tt), [first; ErrParsingSkill]. unfold parse_skill_md, print.
        by rewrite add_log_add_log.
      * destruct (at_top rp (in_skill_name args)) as [[content|]|] eqn:Htop.
        -- right. exists n, u, rp, content, first. repeat split; try done. by right.
        -- left. exists (inr tt), [first; ErrParsingSkill]. unfold parse_skill_md, print.
           by rewrite add_log_add_log.
        -- left. exists (inr tt), [first; ErrSkillNotFound (in_skill_name args) n].
           unfold print. by rewrite add_log_add_log.
    + left. exists (inl CalledProcessError), [first; MsgCommandFailed].
      rewrite io_bind_run. unfold print, raise. by rewrite add_log_add_log.
  - destruct (select_source_cases args (default [] (sources cfg)) w)
      as [[e' He] | [[s' He] | (n' & u' & He)]]; rewrite He in Hsel; try done.
    injection Hsel as <-. left. exists (inr tt), [ErrSourceNotFound s']. done.
Qed.


(** [command_ingest] writes a file only when the source it took is
    registered, git has delivered its repository, and the repository holds
    the skill with a [SKILL.md], under [skills/] or else at the top; with
    [--source] given, the source taken is that one. *)
Theorem command_ingest_writes_found_skill (env : environment) (args : ingest_args)
    (cfg : config) (w : fs) :
  written (command_ingest env args cfg w).2 ≠ written w →
  ∃ name url rp content,
    dict_get (default [] (sources cfg)) name = Some url ∧
    (truthy (in_source args) = true → in_source args = Some name) ∧
    git env name url = Some rp ∧
    (in_skills rp (in_skill_name args) = Some (Some content) ∨
     (in_skills rp (in_skill_name args) = None ∧
      at_top rp (in_skill_name args) = Some (Some content))).
Proof.
  intros Hw.
  destruct (command_ingest_inv env args cfg w)
    as [(r & msgs & Hrun) | (name & url & rp & content & first & H1 & H2 & H3 & H4 & _)].
  - exfalso. apply Hw. rewrite Hrun. cbn [snd].
    by rewrite written_add_log, written_in_prints, app_nil_r.
  - by exists name, url, rp, content.
Qed.

Lemma command_ingest_writes_found_skill_witness :
  ∃ name url rp content,
    dict_get (default [] (sources default_config)) name = Some url ∧
    (truthy None = true → None = Some name) ∧
    git demo_environment name url = Some rp ∧
    (in_skills rp (lit "webapp-testing") = Some (Some content) ∨
     (in_skills rp (lit "webapp-testing") = None ∧
      at_top rp (lit "webapp-testing") = Some (Some content))).
Proof.
  apply (command_ingest_writes_found_skill demo_environment
           (mkIngestArgs (lit "webapp-testing") AsWorkflow None ScopeWorkspace None None)
           default_config empty_fs).
  by vm_compute.
Defined.


(** ** Errors of [command_ingest] *)

(** [ingest --source s] with a source that is not registered prints the
    error message, returns, and does nothing else: git is not run and no file
    is touched. *)
Theorem command_ingest_unknown_source (env : environment) (args : ingest_args) (cfg : config)
    (w : fs) (s : str) :
  in_source args = Some s → s ≠ [] → dict_get (default [] (sources cfg)) s = None →
  command_ingest env args cfg w = (inr tt, add_log w [Print (ErrSourceNotFound s)]).
Proof.
  intros Hs Hne Hget. unfold command_ingest, select_source. rewrite Hs.
  destruct s as [|ch s]; [done|]. cbn [truthy default from_option id].
  rewrite Hget. by rewrite !io_bind_run.
Qed.

Lemma command_ingest_unknown_source_witness :
  command_ingest demo_environment
    (mkIngestArgs (lit "webapp-testing") AsWorkflow (Some (lit "mine")) ScopeWorkspace None None)
    default_config empty_fs
  = (inr tt, add_log empty_fs [Print (ErrSourceNotFound (lit "mine"))]).
Proof.
  apply (command_ingest_unknown_source demo_environment
           (mkIngestArgs (lit "webapp-testing") AsWorkflow (Some (lit "mine")) ScopeWorkspace
              None None) default_config empty_fs (lit "mine")); [reflexivity | done | reflexivity].
Defined.



(** ** Runs of the tool, one after the other *)

Lemma command_ingest_selected (env : environment) (args : ingest_args) (cfg : config)
    (w : fs) (s url : str) :
  select_source args (default [] (sources cfg)) w = (inr (Some (s, url)), w) →
  ∃ evs, log (command_ingest env args cfg w).2
         = log w ++ Print (if cached env s then MsgUpdating s url else MsgCloning s url) :: evs.
Proof.
  intros Hsel. unfold command_ingest. rewrite io_bind_run, Hsel.
  unfold ensure_repo_synced. rewrite !io_bind_run.
  set (first := if cached env s then MsgUpdating s url else MsgCloning s url).
  assert (Hfirst : (if cached env s then print (MsgUpdating s url)
                    else print (MsgCloning s url)) w
                   = (inr tt, add_log w [Print first])).
  { subst first. by destruct (cached env _). }
  rewrite Hfirst. destruct (git env s url) as [rp|].
  - unfold mret, io_ret.
    destruct (match in_skills rp (in_skill_name args) with
              | Some d => Some d
              | None => at_top rp (in_skill_name args)
              end) as [[content|]|].
    + unfold parse_skill_md.
      destruct (write_artifact_changes args (in_skill_name args) (parse_content content)
                  (add_log w [Print first])) as [(_ & _ & evs & Hlog) _].
      exists evs. rewrite Hlog. cbn [log add_log]. by rewrite <- app_assoc.
    + unfold parse_skill_md, print. rewrite add_log_add_log. by eexists.
    + unfold print. rewrite add_log_add_log. by eexists.
  - rewrite io_bind_run. unfold print, raise. rewrite add_log_add_log. by eexists.
Qed.

Lemma command_ingest_source (env : environment) (args : ingest_args) (cfg : config)
    (w : fs) (s url : str) :
  in_source args = Some s → s ≠ [] → dict_get (default [] (sources cfg)) s = Some url →
  ∃ evs, log (command_ingest env args cfg w).2
         = log w ++ Print (if cached env s then MsgUpdating s url else MsgCloning s url) :: evs.
Proof.
  intros Hs Hne Hget. apply command_ingest_selected. unfold select_source. rewrite Hs.
  destruct s as [|ch s]; [done|]. cbn [truthy default from_option id]. by rewrite Hget.
Qed.

Lemma main_add_source (env : environment) (dirs : directories) (a : add_source_args) (w : fs) :
  main env dirs (CmdAddSource a) w
  = match command_add_source a (default default_config (config_file w)) w with
    | (inr _, w') => (inr [], w')
    | (inl e, w') => (inl e, w')
    end.
Proof. unfold main, load_config. rewrite !io_bind_run. by destruct (command_add_source _ _ _) as [[]]. Qed.

Lemma main_ingest (env : environment) (dirs : directories) (i : ingest_args) (w : fs) :
  main env dirs (CmdIngest i) w
  = match command_ingest env i (default default_config (config_file w)) w with
    | (inr _, w') => (inr [], w')
    | (inl e, w') => (inl e, w')
    end.
Proof. unfold main, load_config. rewrite !io_bind_run. by destruct (command_ingest _ _ _ _) as [[]]. Qed.

Lemma main_list_sources (env : environment) (dirs : directories) (w : fs) :
  main env dirs CmdListSources w
  = (inr (command_list_sources (default default_config (config_file w))), w).
Proof. reflexivity. Qed.

Lemma command_add_source_run (a : add_source_args) (cfg : config) (w : fs) (srcs : dict) :
  sources cfg = Some srcs →
  command_add_source a cfg w
  = (inr tt,
     add_log (mkFs (global_rules w) (workflows w) (workspace_rules w)
                (Some (mkConfig (Some (dict_set srcs (source_name_of a) (as_url a))))) (log w))
       [SaveConfig (mkConfig (Some (dict_set srcs (source_name_of a) (as_url a))));
        Print (MsgAddedSource (source_name_of a) (as_url a))]).
Proof.
  intros Hs. unfold command_add_source. rewrite Hs, io_bind_run.
  unfold save_config, print. by rewrite add_log_add_log.
Qed.

(** Two runs of the tool: [add-source] and then [ingest --source] with the
    name the source was registered under.  The first run saves the
    configuration with the source; the second reads it back and turns to git
    for the URL that was added. *)
Theorem add_source_then_ingest (env : environment) (dirs : directories) (a : add_source_args)
    (i : ingest_args) (w : fs) (srcs : dict) :
  sources (default default_config (config_file w)) = Some srcs →
  in_source i = Some (source_name_of a) → source_name_of a ≠ [] →
  ∃ r w' evs,
    (main env dirs (CmdAddSource a) ;; main env dirs (CmdIngest i)) w = (r, w') ∧
    log w' = log w ++
      [SaveConfig (mkConfig (Some (dict_set srcs (source_name_of a) (as_url a))));
       Print (MsgAddedSource (source_name_of a) (as_url a));
       Print (if cached env (source_name_of a)
              then MsgUpdating (source_name_of a) (as_url a)
              else MsgCloning (source_name_of a) (as_url a))] ++ evs.
Proof.
  intros Hsrcs Hi Hne. rewrite io_bind_run, main_add_source.
  rewrite (command_add_source_run a _ w srcs Hsrcs), main_ingest.
  set (cfg' := mkConfig (Some (dict_set srcs (source_name_of a) (as_url a)))).
  set (w1 := add_log _ _).
  change (default default_config (config_file w1)) with cfg'.
  destruct (command_ingest_source env i cfg' w1 (source_name_of a) (as_url a) Hi Hne
              (dict_get_set_eq _ _ _)) as [evs Hlog].
  destruct (command_ingest env i cfg' w1) as [r w'] eqn:Hrun. cbn [snd] in Hlog.
  exists (match r with inl e => inl e | inr _ => inr [] end), w', evs. split.
  - by destruct r.
  - rewrite Hlog. subst w1. cbn [log add_log]. by rewrite <- !app_assoc.
Qed.

Lemma add_source_then_ingest_witness :
  let a := mkAddSourceArgs (lit "https://example.org/team/tools.git") None in
  let i := mkIngestArgs (lit "webapp-testing") AsWorkflow (Some (lit "tools")) ScopeWorkspace
             None None in
  ∃ r w' evs,
    (main demo_environment (mkDirectories None None) (CmdAddSource a) ;;
     main demo_environment (mkDirectories None None) (CmdIngest i)) empty_fs = (r, w') ∧
    log w' = log empty_fs ++
      [SaveConfig (mkConfig (Some (dict_set
         [(lit "anthropics", lit "https://github.com/anthropics/skills")]
         (source_name_of a) (as_url a))));
       Print (MsgAddedSource (source_name_of a) (as_url a));
       Print (if cached demo_environment (source_name_of a)
              then MsgUpdating (source_name_of a) (as_url a)
              else MsgCloning (source_name_of a) (as_url a))] ++ evs.
Proof.
  intros a i.
  apply (add_source_then_ingest demo_environment (mkDirectories None None) a i empty_fs
           [(lit "anthropics", lit "https://github.com/anthropics/skills")]);
    [reflexivity | reflexivity | by vm_compute].
Defined.

Lemma dict_get_elem (d : dict) (k v : str) : dict_get d k = Some v → (k, v) ∈ d.
Proof.
  induction d as [|[k' v'] d IH]; simpl; [done|].
  destruct (decide (k' = k)) as [->|Hne].
  - intros [= ->]. left.
  - intros H. right. by apply IH.
Qed.

(** Two runs of the tool: [add-source] and then [list-sources].  The second
    run prints the heading and then a line for the source just added, with its
    name padded to fifteen characters and its URL, and a line for every source
    that was registered before under another name. *)
Theorem add_source_then_list_sources (env : environment) (dirs : directories)
    (a : add_source_args) (w : fs) (srcs : dict) :
  sources (default default_config (config_file w)) = Some srcs →
  ∃ w' lines,
    (main env dirs (CmdAddSource a) ;; main env dirs CmdListSources) w
    = (inr (lit "Registered Sources:" :: lines), w') ∧
    lit "  " ++ ljust 15 (source_name_of a) ++ lit " " ++ as_url a ∈ lines ∧
    (∀ k u, k ≠ source_name_of a → dict_get srcs k = Some u →
            lit "  " ++ ljust 15 k ++ lit " " ++ u ∈ lines) ∧
    length lines = length srcs + (if dict_get srcs (source_name_of a) is Some _ then 0 else 1).
Proof.
  intros Hsrcs. rewrite io_bind_run, main_add_source.
  rewrite (command_add_source_run a _ w srcs Hsrcs), main_list_sources.
  cbn [config_file add_log default from_option id].
  unfold command_list_sources. cbn [sources default from_option id].
  eexists _, _. split; [reflexivity|].
  assert (Hline : ∀ k u, dict_get (dict_set srcs (source_name_of a) (as_url a)) k = Some u →
            lit "  " ++ ljust 15 k ++ lit " " ++ u
            ∈ (λ '(name, url), lit "  " ++ ljust 15 name ++ lit " " ++ url)
                <$> dict_set srcs (source_name_of a) (as_url a)).
  { intros k u Hget%dict_get_elem. apply list_elem_of_fmap. by exists (k, u). }
  split; [apply Hline, dict_get_set_eq|]. split.
  - intros k u Hk Hget. apply Hline. by rewrite dict_get_set_ne.
  - rewrite length_fmap. rewrite <- (length_fmap fst), dict_set_keys.
    destruct (dict_get srcs _); rewrite ?length_app, !length_fmap; simpl; lia.
Qed.

Lemma add_source_then_list_sources_witness :
  let a := mkAddSourceArgs (lit "https://example.org/team/tools.git") None in
  ∃ w' lines,
    (main demo_environment (mkDirectories None None) (CmdAddSource a) ;;
     main demo_environment (mkDirectories None None) CmdListSources) empty_fs
    = (inr (lit "Registered Sources:" :: lines), w') ∧
    lit "  " ++ ljust 15 (source_name_of a) ++ lit " " ++ as_url a ∈ lines ∧
    (∀ k u, k ≠ source_name_of a →
            dict_get [(lit "anthropics", lit "https://github.com/anthropics/skills")] k = Some u →
            lit "  " ++ ljust 15 k ++ lit " " ++ u ∈ lines) ∧
    length lines = length [(lit "anthropics", lit "https://github.com/anthropics/skills")]
                   + (if dict_get [(lit "anthropics", lit "https://github.com/anthropics/skills")]
                           (source_name_of a) is Some _ then 0 else 1).
Proof.
  intros a.
  apply (add_source_then_list_sources demo_environment (mkDirectories None None) a empty_fs
           [(lit "anthropics", lit "https://github.com/anthropics/skills")]).
  reflexivity.
Defined.

(** ** The names [list_artifacts] finds in the global rules document *)

Lemma dot_lazy_Some (close s g r : str) :
  dot_lazy close s = Some (g, r) → s = g ++ close ++ r ∧ nl ∉ g.
Proof.
  revert g. induction s as [|ch s IH]; intros g; cbn [dot_lazy].
  - destruct (startswith close []) eqn:Hc; [|done]. intros [= <- <-].
    apply startswith_spec in Hc as [r' Hr']. destruct close; [|done].
    split; [done | by intros ?%elem_of_nil].
  - destruct (startswith close (ch :: s)) eqn:Hc.
    + intros [= <- <-]. apply startswith_spec in Hc as [r' Hr']. rewrite Hr'.
      rewrite drop_app_length. split; [done | by intros ?%elem_of_nil].
    + destruct (char_eqb ch nl) eqn:Hch; [done|].
      destruct (dot_lazy close s) as [[g' r']|]; [|done]. intros [= <- <-].
      destruct (IH g' eq_refl) as [-> Hg]. split; [done|].
      apply not_elem_of_cons. split; [|done]. intros <-. by rewrite char_eqb_refl in Hch.
Qed.


Lemma start_marker_unfold (n : str) (r : str) :
  start_marker n ++ r = lit "<!-- ANTHROPIC_SKILL_START: " ++ n ++ lit " -->" ++ r.
Proof. unfold start_marker. by rewrite <- !app_assoc. Qed.

Lemma match_name_Some (s g r : str) :
  match_name s = Some (g, r) → s = start_marker g ++ r ∧ g ≠ [] ∧ nl ∉ g.
Proof.
  unfold match_name.
  destruct (startswith (lit "<!-- ANTHROPIC_SKILL_START: ") s) eqn:Hp; [|done].
  apply startswith_spec in Hp as [t ->]. rewrite drop_app_length.
  destruct t as [|ch t]; [done|]. destruct (char_eqb ch nl) eqn:Hch; [done|].
  destruct (dot_lazy (lit " -->") t) as [[g' r']|] eqn:Hd; [|done]. intros [= <- <-].
  apply dot_lazy_Some in Hd as [-> Hg]. rewrite start_marker_unfold.
  split; [done|]. split; [done|]. apply not_elem_of_cons. split; [|done].
  intros <-. by rewrite char_eqb_refl in Hch.
Qed.

Lemma match_name_shorter (s g r : str) : match_name s = Some (g, r) → length r < length s.
Proof.
  intros (-> & _ & _)%match_name_Some. rewrite start_marker_unfold, !length_app.
  change (length (lit "<!-- ANTHROPIC_SKILL_START: ")) with 28. lia.
Qed.

Lemma findall_upto_S (f : nat) (s : str) :
  findall_upto (S f) s
  = match match_name s with
    | Some (g, r) => g :: findall_upto f r
    | None => match s with [] => [] | _ :: s' => findall_upto f s' end
    end.
Proof. reflexivity. Qed.

Lemma match_name_nil : match_name [] = None.
Proof. reflexivity. Qed.

(** The search has rounds enough: more change nothing. *)
Lemma findall_upto_enough (f1 f2 : nat) (s : str) :
  length s ≤ f1 → length s ≤ f2 → findall_upto f1 s = findall_upto f2 s.
Proof.
  revert f2 s. induction f1 as [|f1 IH]; intros f2 s H1 H2.
  - destruct s; [|simpl in H1; lia]. destruct f2; [done|]. by rewrite findall_upto_S, match_name_nil.
  - destruct f2 as [|f2].
    { destruct s; [|simpl in H2; lia]. by rewrite findall_upto_S, match_name_nil. }
    rewrite !findall_upto_S. destruct (match_name s) as [[g r]|] eqn:Hm.
    + pose proof (match_name_shorter s g r Hm). f_equal. apply IH; lia.
    + destruct s as [|ch s]; [done|]. simpl in H1, H2. apply IH; lia.
Qed.

Lemma findall_match (s g r : str) : match_name s = Some (g, r) → findall s = g :: findall r.
Proof.
  intros Hm. pose proof (match_name_shorter s g r Hm) as Hlen. unfold findall.
  destruct (length s) as [|f] eqn:Hl; [lia|]. rewrite findall_upto_S, Hm. f_equal.
  apply findall_upto_enough; lia.
Qed.

Lemma findall_skip (ch : N) (s : str) : match_name (ch :: s) = None → findall (ch :: s) = findall s.
Proof.
  intros Hm. unfold findall. cbn [length]. by rewrite findall_upto_S, Hm.
Qed.

Lemma findall_sound (s m : str) :
  m ∈ findall s → m ≠ [] ∧ (nl ∉ m) ∧ occurs_in (start_marker m) s.
Proof.
  remember (length s) as k eqn:Hk. revert s Hk.
  induction k as [k IH] using lt_wf_ind. intros s -> Hm.
  destruct (match_name s) as [[g r]|] eqn:Hmatch.
  - rewrite (findall_match s g r Hmatch) in Hm.
    pose proof (match_name_shorter s g r Hmatch) as Hlen.
    apply match_name_Some in Hmatch as (-> & Hg & Hnl).
    apply elem_of_cons in Hm as [->|Hm].
    + split; [done|]. split; [done|]. by exists [], r.
    + destruct (IH (length r) Hlen r eq_refl Hm) as (? & ? & Hocc).
      split; [done|]. split; [done|]. by apply occurs_in_app_r.
  - destruct s as [|ch s]; [by apply elem_of_nil in Hm|].
    rewrite (findall_skip ch s Hmatch) in Hm.
    destruct (IH (length s) ltac:(simpl; lia) s eq_refl Hm) as (? & ? & Hocc).
    split; [done|]. split; [done|]. by apply (occurs_in_app_r _ [ch]).
Qed.

Lemma elem_of_sorted (m : str) (l : list (list N)) : m ∈ sorted l ↔ m ∈ l.
Proof. unfold sorted. by rewrite merge_sort_Permutation. Qed.


(** Every name [list_artifacts] shows under [INSTALLED GLOBAL RULES] is the
    name of a start marker that stands in the document; it is not empty and
    holds no line feed.  (No end marker is asked for.) *)
Theorem installed_global_rules_sound (content m : str) :
  m ∈ installed_global_rules content →
  m ≠ [] ∧ (nl ∉ m) ∧ occurs_in (start_marker m) content.
Proof. unfold installed_global_rules. rewrite elem_of_sorted. apply findall_sound. Qed.

Lemma installed_global_rules_sound_witness :
  lit "demo" ≠ [] ∧ (nl ∉ lit "demo") ∧
  occurs_in (start_marker (lit "demo")) (lit "# Rules" ++ [nl] ++ new_block (lit "demo") (lit "text")).
Proof.
  apply (installed_global_rules_sound
           (lit "# Rules" ++ [nl] ++ new_block (lit "demo") (lit "text")) (lit "demo")).
  vm_compute. left.
Defined.











(** ** One rule, several commands *)





Lemma rstrip_snoc_space (s : str) (ch : N) : is_space ch = true → rstrip (s ++ [ch]) = rstrip s.
Proof. intros Hch. unfold rstrip. rewrite rev_app_distr. cbn [rev app lstrip]. by rewrite Hch. Qed.




(** ** Files made and removed *)


(** ** What the parser gives, and what it reads back *)

Lemma rstrip_blank_r (x b : str) : forallb is_space b = true → rstrip (x ++ b) = rstrip x.
Proof.
  induction b as [|c b IH] using rev_ind; intros Hb; [by rewrite app_nil_r|].
  rewrite forallb_app in Hb. apply andb_true_iff in Hb as [Hb Hc]. simpl in Hc.
  rewrite andb_true_r in Hc. rewrite app_assoc, rstrip_snoc_space by done. by apply IH.
Qed.

Lemma lstrip_blank_l (a y : str) : forallb is_space a = true → lstrip (a ++ y) = lstrip y.
Proof.
  induction a as [|c a IH]; [done|]. simpl. intros [Hc Ha]%andb_true_iff.
  rewrite Hc. by apply IH.
Qed.

Lemma strip_padded (a s b : str) :
  forallb is_space a = true → forallb is_space b = true → stripped s →
  strip (a ++ s ++ b) = s.
Proof.
  intros Ha Hb [Hhead Hlast]. unfold strip. rewrite app_assoc, rstrip_blank_r by done.
  destruct s as [|z t _] using rev_ind.
  - rewrite app_nil_r. rewrite <- (app_nil_l a), rstrip_blank_r by done. done.
  - pose proof (Hlast t z eq_refl) as Hz.
    rewrite app_assoc, <- (app_nil_r ((a ++ t) ++ [z])), rstrip_app_keep by done.
    change (rstrip []) with (@nil N). rewrite app_nil_r, <- app_assoc, lstrip_blank_l by done.
    destruct (t ++ [z]) as [|h t'] eqn:E; [done|]. cbn [lstrip]. by rewrite (Hhead h t').
Qed.

Lemma elem_of_strip (x : N) (s : str) : x ∈ strip s → x ∈ s.
Proof.
  unfold strip. intros Hx.
  destruct (lstrip_suffix (rstrip s)) as (w1 & E1 & _).
  destruct (rstrip_prefix s) as (w2 & E2 & _).
  rewrite E2, E1, !elem_of_app. auto.
Qed.

Lemma splitlines_cons_char (c : N) (s : str) :
  is_linebreak c = false →
  splitlines (c :: s) = match splitlines s with
                        | [] => [[c]]
                        | l :: ls => (c :: l) :: ls
                        end.
Proof. intros Hc. cbn [splitlines]. by rewrite Hc. Qed.

Lemma splitlines_nl_cons (s : str) : splitlines (nl :: s) = [] :: splitlines s.
Proof. by destruct s. Qed.

Lemma splitlines_snoc_nl (u : str) : one_line u → splitlines (u ++ [nl]) = [u].
Proof.
  induction u as [|c u IH]; intros Hu; [done|].
  cbn [app]. rewrite splitlines_cons_char by (apply Hu; left).
  rewrite IH; [done|]. intros ch Hch. apply Hu. by right.
Qed.

Lemma splitlines_one_line (s l : str) : l ∈ splitlines s → one_line l.
Proof.
  remember (length s) as k eqn:Hk. revert s l Hk.
  induction k as [k IH] using lt_wf_ind. intros s l -> Hl.
  destruct s as [|ch s]; [by apply elem_of_nil in Hl|].
  destruct (is_linebreak ch) eqn:Hch.
  - cbn [splitlines] in Hl. rewrite Hch in Hl. apply elem_of_cons in Hl as [->|Hl].
    { by intros ? ?%elem_of_nil. }
    destruct s as [|ch2 s]; [by apply elem_of_nil in Hl|].
    destruct (char_eqb ch cr && char_eqb ch2 nl).
    + apply (IH (length s) ltac:(simpl; lia) s l eq_refl Hl).
    + apply (IH (length (ch2 :: s)) ltac:(simpl; lia) (ch2 :: s) l eq_refl Hl).
  - rewrite splitlines_cons_char in Hl by done.
    destruct (splitlines s) as [|l0 ls] eqn:Hs.
    + apply list_elem_of_singleton in Hl as ->. intros c Hc.
      by apply list_elem_of_singleton in Hc as ->.
    + apply elem_of_cons in Hl as [->|Hl].
      * intros c [->|Hc]%elem_of_cons; [done|].
        apply (IH (length s) ltac:(simpl; lia) s l0 eq_refl); [rewrite Hs; left | done].
      * apply (IH (length s) ltac:(simpl; lia) s l eq_refl). rewrite Hs. by right.
Qed.

Lemma parse_content_frontmatter (content : str) :
  frontmatter (parse_content content) = ∅ ∨
  ∃ F, frontmatter (parse_content content) = parse_frontmatter F.
Proof.
  rewrite parse_content_unfold. destruct (startswith _ _); [|by left].
  destruct (cut _ _) as [[F R]|]; [right; by exists F | by left].
Qed.

(** Every entry of the frontmatter [parse_skill_md] returns is trimmed and
    comes from one line: key and value have no white space at either end and
    no line break, and the key holds no colon. *)
Theorem frontmatter_entries_trimmed (content k v : str) :
  frontmatter (parse_content content) !! k = Some v →
  stripped k ∧ stripped v ∧ (colon ∉ k) ∧ one_line k ∧ one_line v.
Proof.
  destruct (parse_content_frontmatter content) as [-> | [F ->]]; [by rewrite lookup_empty|].
  unfold parse_frontmatter. rewrite parse_lines_binds.
  intros (l1 & key & val & l2 & Hlines & Hcolon & <- & <- & _).
  assert (Hline : one_line (key ++ colon :: val)).
  { apply (splitlines_one_line F). rewrite Hlines, !elem_of_app. right. left. left. }
  split; [apply strip_stripped|]. split; [apply strip_stripped|].
  split; [by intros ?%elem_of_strip|]. split.
  - intros ch Hch%elem_of_strip. apply Hline. rewrite elem_of_app. by left.
  - intros ch Hch%elem_of_strip. apply Hline. rewrite elem_of_app. right. by right.
Qed.

Lemma stripped_ends (s : str) :
  match s with h :: _ => is_space h | [] => false end = false →
  match last s with Some z => is_space z | None => false end = false →
  stripped s.
Proof.
  intros Hh Hz. split.
  - by intros h t ->.
  - intros t z ->. by rewrite last_snoc in Hz.
Qed.

Lemma one_line_forallb (s : str) : forallb (λ ch, negb (is_linebreak ch)) s = true → one_line s.
Proof.
  rewrite forallb_forall. intros H ch Hch%list_elem_of_In. apply H in Hch.
  by apply negb_true_iff.
Qed.

Lemma frontmatter_entries_trimmed_witness :
  stripped (lit "description") ∧ stripped (lit "Tests web apps") ∧
  (colon ∉ lit "description") ∧ one_line (lit "description") ∧ one_line (lit "Tests web apps").
Proof.
  apply (frontmatter_entries_trimmed demo_skill_md). reflexivity.
Defined.

Lemma closes_at_line (u R : str) :
  occurrences (lit "---") u = 0 → closes_at (u ++ [nl]) R.
Proof.
  intros Hu. apply closes_at_cut. apply cut_found. intros i Hi.
  rewrite length_app in Hi. simpl in Hi.
  rewrite <- app_assoc. cbn [app]. rewrite drop_app_le by lia.
  rewrite startswith_stop by by apply (proj1 (contains_char _ _)).
  by apply occurrences_zero_drop.
Qed.

Lemma occurrences_description (X : str) :
  occurrences (lit "---") X = 0 →
  occurrences (lit "---") ([nl] ++ lit "description: " ++ X) = 0.
Proof.
  intros HX. change ([nl] ++ lit "description: " ++ X)
    with (([nl] ++ lit "description:") ++ space :: X).
  rewrite occurrences_app_stop; [|done|by apply (proj1 (contains_char _ _))].
  by rewrite HX.
Qed.

Lemma parse_workflow_text (skill_name : str) (data : skill) (d : str) :
  d = default (lit "Workflow for " ++ skill_name) (frontmatter data !! lit "description") →
  stripped d → one_line d → occurrences (lit "---") d = 0 → stripped (body data) →
  parse_content (workflow_text skill_name data)
  = mkSkill {[ lit "description" := d ]} (body data).
Proof.
  intros -> Hd Hline Hdash Hbody. unfold workflow_text.
  set (d := default _ _) in *.
  replace (lit "---" ++ [nl] ++ lit "description: " ++ d ++ [nl] ++ lit "---" ++ [nl]
           ++ body data ++ [nl])
    with (lit "---" ++ (([nl] ++ lit "description: " ++ d) ++ [nl]) ++ lit "---"
          ++ ([nl] ++ body data ++ [nl])) by by rewrite <- !app_assoc.
  rewrite parse_content_block by by apply closes_at_line, occurrences_description.
  f_equal.
  - assert (Hlines : splitlines (([nl] ++ lit "description: " ++ d) ++ [nl])
                     = [[]; lit "description: " ++ d]).
    { change (([nl] ++ lit "description: " ++ d) ++ [nl])
        with (nl :: (lit "description: " ++ d) ++ [nl]).
      rewrite splitlines_nl_cons, splitlines_snoc_nl; [done|].
      intros ch [Hch|Hch]%elem_of_app; [|by apply Hline].
      revert ch Hch. by apply Forall_forall, (bool_decide_unpack _). }
    unfold parse_frontmatter. rewrite Hlines.
    cbn [foldl]. rewrite !parse_line_spec.
    change (line_binding []) with (@None (list N * list N)). cbn iota.
    unfold line_binding.
    assert (Hval : strip ([space] ++ d) = d).
    { rewrite <- (app_nil_r d) at 1. by apply strip_padded. }
    change (lit "description: " ++ d) with (lit "description" ++ colon :: ([space] ++ d)).
    rewrite cut_char by by apply (proj1 (contains_char _ _)).
    rewrite Hval.
    replace (strip (lit "description")) with (lit "description") by by vm_compute.
    done.
  - by apply strip_padded.
Qed.

(** A workflow file parses back.  When the description written (the one of
    the skill, or the default one) is trimmed, holds no line break and no
    [---], and the body is trimmed, the text [create_workflow] writes is read
    by the parser of [parse_skill_md] as that description and that body. *)
Theorem workflow_text_parses_back (skill_name : str) (data : skill) :
  let d := default (lit "Workflow for " ++ skill_name) (frontmatter data !! lit "description") in
  stripped d → one_line d → occurrences (lit "---") d = 0 → stripped (body data) →
  parse_content (workflow_text skill_name data)
  = mkSkill {[ lit "description" := d ]} (body data).
Proof. intros d. by apply parse_workflow_text. Qed.

Lemma workflow_text_parses_back_witness :
  parse_content (workflow_text (lit "demo") (parse_content demo_skill_md))
  = mkSkill {[ lit "description" := lit "Tests web apps" ]} (lit "# Web app testing").
Proof.
  apply (workflow_text_parses_back (lit "demo") (parse_content demo_skill_md)).
  - by apply stripped_ends.
  - by apply one_line_forallb.
  - reflexivity.
  - by apply stripped_ends.
Defined.

Lemma splitlines_pieces (s l : str) : l ∈ splitlines s → occurs_in l s.
Proof.
  remember (length s) as k eqn:Hk. revert s l Hk.
  induction k as [k IH] using lt_wf_ind. intros s l -> Hl.
  destruct s as [|ch s]; [by apply elem_of_nil in Hl|].
  destruct (is_linebreak ch) eqn:Hch.
  - cbn [splitlines] in Hl. rewrite Hch in Hl. apply elem_of_cons in Hl as [->|Hl].
    { by exists [], (ch :: s). }
    destruct s as [|ch2 s]; [by apply elem_of_nil in Hl|].
    destruct (char_eqb ch cr && char_eqb ch2 nl).
    + apply (occurs_in_app_r _ [ch; ch2]).
      apply (IH (length s) ltac:(simpl; lia) s l eq_refl Hl).
    + apply (occurs_in_app_r _ [ch]).
      apply (IH (length (ch2 :: s)) ltac:(simpl; lia) (ch2 :: s) l eq_refl Hl).
  - rewrite splitlines_cons_char in Hl by done.
    destruct (splitlines s) as [|l0 ls] eqn:Hs.
    + apply list_elem_of_singleton in Hl as ->.
      destruct s as [|c2 s]; [by exists [], []|].
      exfalso. cbn [splitlines] in Hs. destruct (is_linebreak c2); [done|].
      by destruct (splitlines s).
    + apply elem_of_cons in Hl as [->|Hl].
      * assert (Hhead : ∃ v, s = l0 ++ v).
        { clear -Hs. revert l0 ls Hs. induction s as [|c s IHs]; intros l0 ls Hs; [done|].
          cbn [splitlines] in Hs. destruct (is_linebreak c).
          - injection Hs as <- _. by exists (c :: s).
          - destruct (splitlines s) as [|l1 ls1] eqn:E.
            + injection Hs as <- _. destruct s as [|c2 s]; [by exists []|].
              exfalso. cbn [splitlines] in E. destruct (is_linebreak c2); [done|].
              by destruct (splitlines s).
            + injection Hs as <- _. destruct (IHs l1 ls1 eq_refl) as [v ->]. by exists v. }
        destruct Hhead as [v ->]. by exists [], v.
      * apply (occurs_in_app_r _ [ch]).
        apply (IH (length s) ltac:(simpl; lia) s l eq_refl). rewrite Hs. by right.
Qed.

Lemma occurrences_piece (q p s : str) :
  q ≠ [] → occurs_in p s → occurrences q s = 0 → occurrences q p = 0.
Proof.
  intros Hq (u & v & ->) Hz. apply occurrences_suffix in Hz.
  by apply occurrences_prefix_zero in Hz.
Qed.

Lemma occurs_in_strip (s : str) : occurs_in (strip s) s.
Proof.
  unfold strip. destruct (lstrip_suffix (rstrip s)) as (w1 & E1 & _).
  destruct (rstrip_prefix s) as (w2 & E2 & _). exists w1, w2.
  rewrite app_assoc, <- E1. exact E2.
Qed.

Lemma closes_at_occurrences (F R : str) : closes_at F R → occurrences (lit "---") F = 0.
Proof.
  intros Hc. apply occurrences_zero; [done|]. intros a b ->.
  specialize (Hc a (b ++ lit "---" ++ R)). rewrite <- !app_assoc in Hc.
  specialize (Hc eq_refl). rewrite !length_app in Hc. simpl in Hc. lia.
Qed.

(** Ingesting a workflow file the tool has written gives the same file
    again: for a [SKILL.md] with frontmatter that binds a description, the
    workflow text parses back to the description and the body it was made
    from, so making a workflow of it a second time reproduces it. *)
Theorem workflow_text_reingested (skill_name F B X : str) :
  closes_at F B → binds (splitlines F) (lit "description") X →
  let text := workflow_text skill_name (parse_content (lit "---" ++ F ++ lit "---" ++ B)) in
  parse_content text = mkSkill {[ lit "description" := X ]} (strip B) ∧
  workflow_text skill_name (parse_content text) = text.
Proof.
  intros Hc Hb text. subst text. rewrite parse_content_block by done.
  assert (Hfm : parse_frontmatter F !! lit "description" = Some X).
  { by apply parse_lines_binds. }
  destruct Hb as (l1 & key & val & l2 & Hlines & Hcolon & Hk & <- & _).
  assert (Hline : key ++ colon :: val ∈ splitlines F).
  { rewrite Hlines, !elem_of_app. right. left. left. }
  assert (Hparse : parse_content (workflow_text skill_name
                                    (mkSkill (parse_frontmatter F) (strip B)))
                   = mkSkill {[ lit "description" := strip val ]} (strip B)).
  { apply parse_workflow_text.
    - cbn [frontmatter]. by rewrite Hfm.
    - apply strip_stripped.
    - intros ch Hch%elem_of_strip. apply (splitlines_one_line F _ Hline).
      rewrite elem_of_app. right. by right.
    - apply (occurrences_piece _ _ val); [done|apply occurs_in_strip|].
      apply (occurrences_piece _ _ (key ++ colon :: val)); [done|by exists (key ++ [colon]), []; rewrite app_nil_r, <- app_assoc|].
      apply (occurrences_piece _ _ F); [done|by apply splitlines_pieces|].
      by apply (closes_at_occurrences F B).
    - apply strip_stripped. }
  split; [exact Hparse|]. rewrite Hparse. unfold workflow_text. cbn [frontmatter body].
  by rewrite Hfm, lookup_singleton_eq.
Qed.

Lemma workflow_text_reingested_witness :
  let text :=
    workflow_text (lit "demo")
      (parse_content (lit "---" ++ ([nl] ++ lit "description:  Says hello " ++ [nl])
                      ++ lit "---" ++ ([nl; nl] ++ lit "# Demo" ++ [nl]))) in
  parse_content text
  = mkSkill {[ lit "description" := lit "Says hello" ]}
      (strip ([nl; nl] ++ lit "# Demo" ++ [nl])) ∧
  workflow_text (lit "demo") (parse_content text) = text.
Proof.
  apply (workflow_text_reingested (lit "demo")
           ([nl] ++ lit "description:  Says hello " ++ [nl]) ([nl; nl] ++ lit "# Demo" ++ [nl])
           (lit "Says hello")).
  - by apply closes_at_cut.
  - exists [[]], (lit "description"), (lit "  Says hello "), [].
    split; [reflexivity|]. split; [by apply (proj1 (contains_char _ _))|].
    split; [reflexivity|]. split; [reflexivity|]. by intros ? ? ?%elem_of_nil.
Defined.

Lemma no_description (content : str) :
  (¬ has_frontmatter_block content ∨
   ∃ F R, content = lit "---" ++ F ++ lit "---" ++ R ∧ closes_at F R ∧
          ∀ v, ¬ binds (splitlines F) (lit "description") v) →
  frontmatter (parse_content content) !! lit "description" = None.
Proof.
  intros [Hno | (F & R & -> & Hc & Hb)].
  - by rewrite parse_content_plain.
  - rewrite parse_content_block by done. cbn [frontmatter].
    destruct (parse_frontmatter F !! lit "description") as [v|] eqn:E; [|done].
    by apply parse_lines_binds, Hb in E.
Qed.

(** A skill without a description: when [SKILL.md] has no frontmatter, or
    no line of its frontmatter has the key [description], the workflow and
    the workspace rule get the default descriptions [Workflow for <name>] and
    [Rule for <name>], and the block of a global rule is the body alone, with
    no comment in front. *)
Theorem skill_without_description (skill_name content : str)
    (act : option activation) (w : fs) :
  (¬ has_frontmatter_block content ∨
   ∃ F R, content = lit "---" ++ F ++ lit "---" ++ R ∧ closes_at F R ∧
          ∀ v, ¬ binds (splitlines F) (lit "description") v) →
  let data := parse_content content in
  workflow_text skill_name data
  = lit "---" ++ [nl] ++ lit "description: Workflow for " ++ skill_name ++ [nl]
    ++ lit "---" ++ [nl] ++ body data ++ [nl] ∧
  workspace_rule_text skill_name data act
  = lit "---" ++ [nl] ++ lit "description: Rule for " ++ skill_name ++ [nl]
    ++ activation_text act ++ lit "---" ++ [nl; nl] ++ body data ∧
  create_rule_global skill_name data w = update_global_rule skill_name (body data) w.
Proof.
  intros Hno%no_description data. subst data.
  unfold workflow_text, workspace_rule_text, create_rule_global. rewrite Hno.
  cbn [default from_option id]. by rewrite <- !app_assoc.
Qed.

Lemma skill_without_description_witness :
  let data := parse_content (lit "# Just text") in
  workflow_text (lit "demo") data
  = lit "---" ++ [nl] ++ lit "description: Workflow for " ++ lit "demo" ++ [nl]
    ++ lit "---" ++ [nl] ++ body data ++ [nl] ∧
  workspace_rule_text (lit "demo") data None
  = lit "---" ++ [nl] ++ lit "description: Rule for " ++ lit "demo" ++ [nl]
    ++ activation_text None ++ lit "---" ++ [nl; nl] ++ body data ∧
  create_rule_global (lit "demo") data empty_fs
  = update_global_rule (lit "demo") (body data) empty_fs.
Proof.
  apply (skill_without_description (lit "demo") (lit "# Just text") None empty_fs).
  left. by intros (a & b & [=]).
Defined.



(** ** The first run *)

(** Without a configuration file and without [--source], [ingest] takes the
    default source: it turns to git for the repository [anthropics] at
    [https://github.com/anthropics/skills]. *)
Theorem ingest_default_source (env : environment) (dirs : directories) (i : ingest_args)
    (w : fs) :
  config_file w = None → truthy (in_source i) = false →
  ∃ r w' evs,
    main env dirs (CmdIngest i) w = (r, w') ∧
    log w' = log w ++
      Print (if cached env (lit "anthropics")
             then MsgUpdating (lit "anthropics") (lit "https://github.com/anthropics/skills")
             else MsgCloning (lit "anthropics") (lit "https://github.com/anthropics/skills"))
      :: evs.
Proof.
  intros Hcfg Hsrc. rewrite main_ingest, Hcfg. cbn [default from_option id].
  destruct (command_ingest_selected env i default_config w (lit "anthropics")
              (lit "https://github.com/anthropics/skills")) as [evs Hlog].
  { unfold select_source. by rewrite Hsrc. }
  destruct (command_ingest env i default_config w) as [r w'] eqn:Hrun. cbn [snd] in Hlog.
  exists (match r with inl e => inl e | inr _ => inr [] end), w', evs.
  split; [by destruct r | done].
Qed.

Lemma ingest_default_source_witness :
  ∃ r w' evs,
    main demo_environment (mkDirectories None None)
      (CmdIngest (mkIngestArgs (lit "webapp-testing") AsWorkflow None ScopeWorkspace None None))
      empty_fs = (r, w') ∧
    log w' = log empty_fs ++
      Print (if cached demo_environment (lit "anthropics")
             then MsgUpdating (lit "anthropics") (lit "https://github.com/anthropics/skills")
             else MsgCloning (lit "anthropics") (lit "https://github.com/anthropics/skills"))
      :: evs.
Proof.
  apply (ingest_default_source demo_environment (mkDirectories None None)
           (mkIngestArgs (lit "webapp-testing") AsWorkflow None ScopeWorkspace None None)
           empty_fs); reflexivity.
Defined.

(** ** The files [list_artifacts] shows *)

Lemma rfind_app (c : N) (n t : str) (i : nat) :
  rfind c t = Some i → rfind c (n ++ t) = Some (length n + i).
Proof.
  intros Ht. induction n as [|x n IH]; [done|]. cbn [app rfind length]. by rewrite IH.
Qed.

Lemma stem_md (n : str) : n ≠ [] → stem (n ++ lit ".md") = n.
Proof.
  intros Hn. unfold stem. rewrite (rfind_app dot n (lit ".md") 0) by reflexivity.
  rewrite Nat.add_0_r, length_app.
  destruct n as [|x n]; [done|]. cbn [length].
  replace (0 <? S (length n)) with true by (symmetry; by apply Nat.ltb_lt; lia).
  replace (S (length n) <? S (length n) + length (lit ".md") - 1) with true
    by (symmetry; apply Nat.ltb_lt; simpl; lia).
  cbn [andb]. by rewrite (take_app_length (x :: n)).
Qed.

Lemma endswith_md (n : str) : endswith (lit ".md") (n ++ lit ".md") = true.
Proof. unfold endswith. rewrite rev_app_distr. apply startswith_app. Qed.

Lemma list_directory_file (names : list (list N)) (n : str) :
  n ≠ [] → n ++ lit ".md" ∈ names → lit "  - " ++ n ∈ list_directory (Some names).
Proof.
  intros Hn Hin. unfold list_directory. apply list_elem_of_fmap.
  exists (n ++ lit ".md"). split; [by rewrite stem_md|].
  apply elem_of_sorted. apply list_elem_of_filter. split; [apply endswith_md | done].
Qed.

(** Every file [<name>.md] of the workflows directory, and of the rules
    directory, is listed by [list_artifacts] under its name, provided the name
    is not empty. *)
Theorem list_artifacts_shows_files (dirs : directories) (w : fs) (names : list (list N))
    (n : str) :
  n ≠ [] → n ++ lit ".md" ∈ names →
  workflows_dir dirs = Some names ∨ rules_dir dirs = Some names →
  lit "  - " ++ n ∈ list_artifacts dirs w.
Proof.
  intros Hn Hin Hdir. unfold list_artifacts. rewrite !elem_of_app.
  destruct Hdir as [-> | ->].
  - right. left. by apply list_directory_file.
  - do 3 right. left. by apply list_directory_file.
Qed.

Lemma list_artifacts_shows_files_witness :
  lit "  - " ++ lit "demo"
  ∈ list_artifacts (mkDirectories (Some [lit "notes.txt"; lit "demo.md"]) None) empty_fs.
Proof.
  apply (list_artifacts_shows_files (mkDirectories (Some [lit "notes.txt"; lit "demo.md"]) None)
           empty_fs [lit "notes.txt"; lit "demo.md"] (lit "demo")).
  - done.
  - right. left.
  - by left.
Defined.

(** ** A workspace rule file read back *)

Lemma splitlines_line (u s : str) : one_line u → splitlines (u ++ nl :: s) = u :: splitlines s.
Proof.
  induction u as [|c u IH]; intros Hu; [apply splitlines_nl_cons|].
  cbn [app]. rewrite splitlines_cons_char by (apply Hu; left).
  rewrite IH; [done|]. intros ch Hch. apply Hu. by right.
Qed.

Lemma splitlines_join (ls : list (list N)) : Forall one_line ls → splitlines (join_lines ls) = ls.
Proof.
  induction 1 as [|l ls Hl _ IH]; [done|]. cbn [join_lines foldr].
  rewrite splitlines_line by done. by f_equal.
Qed.

Lemma occurrences_join (q : str) (ls : list (list N)) :
  q ≠ [] → nl ∉ q → Forall (λ l, occurrences q l = 0) ls → occurrences q (join_lines ls) = 0.
Proof.
  intros Hq Hnl. induction 1 as [|l ls Hl _ IH]; [by apply occurrences_nil|].
  cbn [join_lines foldr]. rewrite occurrences_app_stop by done. fold (join_lines ls). lia.
Qed.

Lemma join_lines_snoc (ls : list (list N)) (l : str) :
  join_lines (ls ++ [l]) = (join_lines ls ++ l) ++ [nl].
Proof.
  induction ls as [|x ls IH]; cbn [app join_lines foldr]; [done|].
  fold (join_lines (ls ++ [l])). rewrite IH. fold (join_lines ls). by rewrite <- !app_assoc.
Qed.

Lemma closes_at_lines (ls : list (list N)) (R : str) :
  ls ≠ [] → Forall (λ l, occurrences (lit "---") l = 0) ls → closes_at (join_lines ls) R.
Proof.
  intros Hne Hls. destruct ls as [|l ls _] using rev_ind; [done|].
  rewrite join_lines_snoc. apply closes_at_line.
  apply (occurrences_prefix_zero _ _ [nl]); [done|]. rewrite <- join_lines_snoc.
  apply occurrences_join; [done | by apply (proj1 (contains_char _ _)) | done].
Qed.

Lemma activation_text_lines (act : option activation) :
  activation_text act = join_lines (activation_lines act).
Proof.
  destruct act as [a|]; [|done]. unfold activation_text, activation_lines.
  destruct (truthy (act_glob a)); cbn [app join_lines foldr]; by rewrite <- ?app_assoc.
Qed.

Lemma line_binding_key (key val : str) :
  colon ∉ key → line_binding (key ++ colon :: val) = Some (strip key, strip val).
Proof. intros Hk. unfold line_binding. by rewrite cut_char. Qed.

Lemma activation_lines_other (act : option activation) (y v : str) :
  y ∈ activation_lines act → line_binding y ≠ Some (lit "description", v).
Proof.
  destruct act as [a|]; [|by intros ?%elem_of_nil]. unfold activation_lines.
  rewrite elem_of_app, !elem_of_cons, elem_of_nil. intros [[->|[->|[]]]|Hy].
  - by vm_compute.
  - change (lit "  type: " ++ activation_name (act_type a))
      with (lit "  type" ++ colon :: ([space] ++ activation_name (act_type a))).
    rewrite line_binding_key by by apply (proj1 (contains_char _ _)).
    intros E. apply (f_equal (fmap fst)) in E. cbn [fmap option_fmap option_map fst] in E.
    by vm_compute in E.
  - destruct (truthy (act_glob a)); [|by apply elem_of_nil in Hy].
    apply list_elem_of_singleton in Hy as ->.
    change (lit "  glob: " ++ default [] (act_glob a))
      with (lit "  glob" ++ colon :: ([space] ++ default [] (act_glob a))).
    rewrite line_binding_key by by apply (proj1 (contains_char _ _)).
    intros E. apply (f_equal (fmap fst)) in E. cbn [fmap option_fmap option_map fst] in E.
    by vm_compute in E.
Qed.

(** A workspace rule file parses back.  When the description written (the one
    of the skill, or the default one) is trimmed, holds no line break and no
    [---], the body is trimmed, and the glob pattern, if there is one, holds
    no line break and no [---] either, the parser of [parse_skill_md] reads
    the text [create_workspace_rule] writes as that description and that
    body, whatever the activation. *)
Theorem workspace_rule_text_parses_back (skill_name : str) (data : skill)
    (act : option activation) :
  let d := default (lit "Rule for " ++ skill_name) (frontmatter data !! lit "description") in
  stripped d → one_line d → occurrences (lit "---") d = 0 → stripped (body data) →
  (∀ a, act = Some a →
        one_line (default [] (act_glob a)) ∧
        occurrences (lit "---") (default [] (act_glob a)) = 0) →
  let parsed := parse_content (workspace_rule_text skill_name data act) in
  frontmatter parsed !! lit "description" = Some d ∧ body parsed = body data.
Proof.
  intros d Hd Hline Hdash Hbody Hglob parsed. subst parsed. unfold workspace_rule_text. fold d.
  set (ls := [[]; lit "description: " ++ d] ++ activation_lines act).
  replace ((lit "---" ++ [nl] ++ lit "description: " ++ d ++ [nl] ++ activation_text act
            ++ lit "---" ++ [nl; nl]) ++ body data)
    with (lit "---" ++ join_lines ls ++ lit "---" ++ ([nl; nl] ++ body data ++ [])).
  2: { subst ls. rewrite activation_text_lines, app_nil_r. cbn [app join_lines foldr].
       fold (join_lines (activation_lines act)).
       by repeat (rewrite <- app_assoc || (progress cbn [app])). }
  assert (Hact : Forall (λ l, one_line l ∧ occurrences (lit "---") l = 0) (activation_lines act)).
  { destruct act as [a|]; [|by constructor]. destruct (Hglob a eq_refl) as [Hg1 Hg2].
    unfold activation_lines. apply Forall_app. split.
    - repeat constructor; try (by apply one_line_forallb).
      + apply one_line_forallb. by destruct (act_type a).
      + by destruct (act_type a).
    - destruct (truthy (act_glob a)); repeat constructor.
      + intros ch [Hch|Hch]%elem_of_app; [|by apply Hg1].
        revert ch Hch. by apply one_line_forallb.
      + change (lit "  glob: " ++ default [] (act_glob a))
          with (lit "  glob:" ++ space :: default [] (act_glob a)).
        rewrite occurrences_app_stop; [|done|by apply (proj1 (contains_char _ _))].
        by rewrite Hg2. }
  assert (Hls1 : Forall one_line ls).
  { subst ls. apply Forall_app. split.
    - repeat constructor; [by intros ? ?%elem_of_nil|].
      intros ch [Hch|Hch]%elem_of_app; [|by apply Hline].
      revert ch Hch. by apply one_line_forallb.
    - eapply Forall_impl; [exact Hact|]. by intros l [? _]. }
  assert (Hls2 : Forall (λ l, occurrences (lit "---") l = 0) ls).
  { subst ls. apply Forall_app. split.
    - repeat constructor.
      change (lit "description: " ++ d) with (lit "description:" ++ space :: d).
      rewrite occurrences_app_stop; [|done|by apply (proj1 (contains_char _ _))].
      by rewrite Hdash.
    - eapply Forall_impl; [exact Hact|]. by intros l [_ ?]. }
  rewrite parse_content_block by by apply closes_at_lines.
  cbn [frontmatter body]. split.
  - unfold parse_frontmatter. rewrite splitlines_join by done.
    apply parse_lines_binds, binds_alt.
    exists [[]], (lit "description: " ++ d), (activation_lines act).
    split; [done|]. split.
    + change (lit "description: " ++ d) with (lit "description" ++ colon :: ([space] ++ d)).
      rewrite line_binding_key by by apply (proj1 (contains_char _ _)).
      assert (Hval : strip ([space] ++ d) = d).
      { rewrite <- (app_nil_r d) at 1. by apply strip_padded. }
      rewrite Hval. by replace (strip (lit "description")) with (lit "description") by by vm_compute.
    + intros y v' Hy. by apply (activation_lines_other act).
  - by apply strip_padded.
Qed.

Lemma workspace_rule_text_parses_back_witness :
  let act := Some (mkActivation Glob (Some (lit "*.py"))) in
  let parsed := parse_content (workspace_rule_text (lit "demo") (parse_content demo_skill_md)
                                 act) in
  frontmatter parsed !! lit "description" = Some (lit "Tests web apps") ∧
  body parsed = lit "# Web app testing".
Proof.
  intros act.
  apply (workspace_rule_text_parses_back (lit "demo") (parse_content demo_skill_md) act).
  - by apply stripped_ends.
  - by apply one_line_forallb.
  - reflexivity.
  - by apply stripped_ends.
  - intros a [= <-]. split; [by apply one_line_forallb | reflexivity].
Defined.

(** ** Backslashes in the content of a rule that is replaced *)













